(** * A shallow embedding of the service-discovery core of miniDistributedSys

    The development follows the Go package [registry]:
    - [registration.go]: the [Registration], [patchEntry] and [patch] structs;
    - [service.go] (the registry server): [add], [notify],
      [sendRequireServices], [sendPatch] and [remove] on the global registry;
    - [client.go]: the client-side [providers] cache with [Update] and [get],
      and the [serviceUpdateHandler] that feeds it.

    Go slices are modelled as lists, the [map[ServiceName][]string] of the
    provider cache as a [gmap], and the HTTP transport as an abstract
    state-passing oracle.  The two mutexes only serialise the operations and
    are not represented: every operation below is one atomic step. *)

From stdpp Require Import base list strings gmap.

Open Scope string_scope.
Open Scope list_scope.

(** ** Data model ([registration.go]) *)

(** [type ServiceName string] *)
Abbreviation ServiceName := string (only parsing).

(** [type Registration struct].  The field [ServiceName] of the Go struct is
    called [RServiceName] here, the type already uses that name. *)
Record Registration := mkRegistration {
  RServiceName : ServiceName;
  ServiceURL : string;
  RequireServices : list ServiceName;
  ServiceUpdateURL : string
}.

(** [type patchEntry struct] *)
Record patchEntry := mkPatchEntry {
  Name : ServiceName;
  URL : string
}.

(** [type patch struct] *)
Record patch := mkPatch {
  Added : list patchEntry;
  Removed : list patchEntry
}.

#[global] Instance Registration_eq_dec : EqDecision Registration.
Proof. solve_decision. Defined.

#[global] Instance patchEntry_eq_dec : EqDecision patchEntry.
Proof. solve_decision. Defined.

#[global] Instance patch_eq_dec : EqDecision patch.
Proof. solve_decision. Defined.

(** The errors the package builds, by the place that builds them. *)
Inductive error :=
  | ErrTransport (msg : string)
      (* whatever [http.Post] reports in [sendPatch] *)
  | ErrServiceNotFound (url : string)
      (* [fmt.Errorf("service at url %s not found", url)] in [remove] *)
  | ErrNoProviders (name : ServiceName).
      (* [fmt.Errorf("no providers available for service %v", name)] in [get] *)

#[global] Instance error_eq_dec : EqDecision error.
Proof. solve_decision. Defined.

(** A Go call either returns or panics with a run-time error. *)
Inductive outcome (A : Type) :=
  | Returns (a : A)
  | Panics (msg : string).
Arguments Returns {A} a.
Arguments Panics {A} msg.

(** ** The provider cache ([client.go]) *)

Module Providers.

(** [providers.services]: service name to the URLs of its instances. *)
Abbreviation services := (gmap string (list string)) (only parsing).

(** One iteration of the first loop of [Update]:
<<
    if _, ok := p.services[patchEntry.Name]; !ok {
        p.services[patchEntry.Name] = make([]string, 0)
    }
    p.services[patchEntry.Name] = append(p.services[patchEntry.Name], patchEntry.URL)
>>
    Reading a missing key of a Go map gives the zero value, the nil slice. *)
Definition Update_added (s : services) (e : patchEntry) : services :=
  let s1 := match s !! Name e with
            | Some _ => s
            | None => <[Name e := []]> s
            end in
  <[Name e := default [] (s1 !! Name e) ++ [URL e]]> s1.

(** The inner loop of the second loop of [Update], at index [i] with
    [rest = providersURLs[i:]]:
<<
    for i := range providersURLs {
        if providersURLs[i] == patchEntry.URL {
            p.services[patchEntry.Name] = append(providersURLs[:i], providersURLs[i+1:]...)
            break
        }
    }
>>
    [append] shifts the tail one place to the left inside the backing array;
    the loop stops right after, so nothing reads the array in between and the
    new slice holds [providersURLs[:i]] followed by [providersURLs[i+1:]]. *)
Fixpoint Update_removed_scan (s : services) (e : patchEntry)
    (providersURLs : list string) (i : nat) (rest : list string) : services :=
  match rest with
  | [] => s
  | x :: rest' =>
      if decide (x = URL e)
      then <[Name e := take i providersURLs ++ drop (S i) providersURLs]> s
      else Update_removed_scan s e providersURLs (S i) rest'
  end.

(** One iteration of the second loop of [Update]. *)
Definition Update_removed (s : services) (e : patchEntry) : services :=
  match s !! Name e with
  | Some providersURLs => Update_removed_scan s e providersURLs 0 providersURLs
  | None => s
  end.

(** [func (p *providers) Update(pat patch)]: all [Added] entries first, then
    all [Removed] entries, each in the order of the patch. *)
Definition Update (s : services) (pat : patch) : services :=
  foldl Update_removed (foldl Update_added s (Added pat)) (Removed pat).

(** [func (p providers) get(name ServiceName) (string, error)].
    [idx] stands for the value of
    [int(rand.Float32() * float32(len(providers)))], which the caller of the
    model supplies; [providers[idx]] panics when [idx] is out of range. *)
Definition get (s : services) (name : ServiceName) (idx : nat)
    : outcome (string * option error) :=
  match s !! name with
  | None => Returns (EmptyString, Some (ErrNoProviders name))
  | Some providers =>
      match providers !! idx with
      | Some url => Returns (url, None)
      | None => Panics "index out of range"
      end
  end.

(** [var prov = providers{services: make(map[ServiceName][]string), ...}] *)
Definition prov : services := ∅.

(** [func (suh serviceUpdateHandler) ServeHTTP(w, r)]: the status code of the
    answer (200 when the handler writes no header) and the cache afterwards.
    [method] is [r.Method]; [body] is what [dec.Decode(&p)] makes of the
    request body, [None] when it returns an error. *)
Definition ServeHTTP (method : string) (body : option patch) (s : services)
    : nat * services :=
  if decide (method = "POST") then
    match body with
    | None => (400, s)
    | Some p => (200, Update s p)
    end
  else (405, s).

End Providers.

(** ** The registry server ([service.go]) *)

Module Registry.

Section Transport.

(** The network is an oracle: [http_post url body n] is what
    [http.Post(url, "application/json", body)] answers in network state [n],
    [None] for a nil error, together with the next network state.  Nothing is
    assumed about it. *)
Variable Net : Type.
Variable http_post : string -> patch -> Net -> option string * Net.

(** The world outside the registry: the network and, as a ghost log, the
    requests posted so far, oldest first. *)
Record World := mkWorld {
  net : Net;
  sent : list (string * patch)
}.

(** [func (r registry) sendPatch(p patch, url string) error].
    [json.Marshal] cannot fail on a [patch] (two slices of structs of
    strings), so the only error is the one of [http.Post]. *)
Definition sendPatch (p : patch) (url : string) (w : World)
    : option error * World :=
  let '(r, n) := http_post url p (net w) in
  (ErrTransport <$> r, {| net := n; sent := sent w ++ [(url, p)] |}).

(** The body of the inner loop of [sendRequireServices]:
<<
    if serviceReg.ServiceName == reqService {
        p.Added = append(p.Added, patchEntry{Name: serviceReg.ServiceName, URL: serviceReg.ServiceURL})
    }
>> *)
Definition sendRequireServices_body (serviceReg : Registration)
    (added : list patchEntry) (reqService : ServiceName) : list patchEntry :=
  if decide (RServiceName serviceReg = reqService)
  then added ++ [mkPatchEntry (RServiceName serviceReg) (ServiceURL serviceReg)]
  else added.

(** The patch that the two nested loops of [sendRequireServices] build from
    [var p patch]: the outer loop runs over the registrations, the inner one
    over [reg.RequireServices]. *)
Definition sendRequireServices_patch (registrations : list Registration)
    (reg : Registration) : patch :=
  {| Added :=
       foldl (fun added serviceReg =>
                foldl (sendRequireServices_body serviceReg) added
                      (RequireServices reg))
             [] registrations;
     Removed := [] |}.

(** [func (r registry) sendRequireServices(reg Registration) error] *)
Definition sendRequireServices (registrations : list Registration)
    (reg : Registration) (w : World) : option error * World :=
  sendPatch (sendRequireServices_patch registrations reg)
            (ServiceUpdateURL reg) w.

(** The body of the two selection loops of [notify], on the pair of the list
    being built and the flag [sendUpdate]:
<<
    if added.Name == reqService {
        p.Added = append(p.Added, added)
        sendUpdate = true
    }
>> *)
Definition notify_pick (reqService : ServiceName)
    (st : list patchEntry * bool) (x : patchEntry) : list patchEntry * bool :=
  if decide (Name x = reqService) then (st.1 ++ [x], true) else st.

(** The loop [for _, reqService := range reg.RequireServices] that one
    goroutine of [notify] runs, over the required services still to visit.
    A failed [sendPatch] is logged and ends the goroutine. *)
Fixpoint notify_go (fullPatch : patch) (reg : Registration)
    (reqs : list ServiceName) (w : World) : World :=
  match reqs with
  | [] => w
  | reqService :: reqs' =>
      let a := foldl (notify_pick reqService) ([], false) (Added fullPatch) in
      let r := foldl (notify_pick reqService) ([], a.2) (Removed fullPatch) in
      if r.2 then
        match sendPatch {| Added := a.1; Removed := r.1 |}
                        (ServiceUpdateURL reg) w with
        | (Some _, w') => w'
        | (None, w') => notify_go fullPatch reg reqs' w'
        end
      else notify_go fullPatch reg reqs' w
  end.

(** A goroutine started by [notify]: the closure [go func(reg Registration)]
    with the registration it received and the [fullPatch] it captured. *)
Record goroutine := mkGoroutine {
  go_reg : Registration;
  go_patch : patch
}.

(** Running one goroutine to its end. *)
Definition run_goroutine (g : goroutine) (w : World) : World :=
  notify_go (go_patch g) (go_reg g) (RequireServices (go_reg g)) w.

(** The requests one goroutine posts when it runs from [w]. *)
Definition deliveries (g : goroutine) (w : World) : list (string * patch) :=
  drop (length (sent w)) (sent (run_goroutine g w)).

(** Running goroutines one after the other, in the given order. *)
Definition run_all (gs : list goroutine) (w : World) : World :=
  foldl (fun w g => run_goroutine g w) w gs.

(** [func (r registry) notify(fullPatch patch)]: one goroutine for each
    registration, in the order of the slice; [notify] does not wait for them. *)
Definition notify (registrations : list Registration) (fullPatch : patch)
    : list goroutine :=
  map (fun reg => mkGoroutine reg fullPatch) registrations.

(** What a call of [add] or [remove] leaves behind: the error it returns, the
    slice [reg.registrations], the goroutines it started (still to run) and
    the world after the synchronous part of the call. *)
Record result := mkResult {
  err : option error;
  registrations : list Registration;
  spawned : list goroutine;
  world : World
}.

(** [func (r *registry) add(reg Registration) error] *)
Definition add (regs : list Registration) (reg : Registration) (w : World)
    : result :=
  let regs' := regs ++ [reg] in
  let '(e, w') := sendRequireServices regs' reg w in
  let gs := notify regs'
              {| Added := [mkPatchEntry (RServiceName reg) (ServiceURL reg)];
                 Removed := [] |} in
  {| err := e; registrations := regs'; spawned := gs; world := w' |}.

(** The loop of [remove] at index [i], with [rest = reg.registrations[i:]]:
<<
    for i := range reg.registrations {
        if reg.registrations[i].ServiceURL == url {
            r.notify(patch{Removed: []patchEntry{{Name: r.registrations[i].ServiceName,
                                                  URL: r.registrations[i].ServiceURL}}})
            reg.registrations = append(reg.registrations[:i], r.registrations[:i+1]...)
            return nil
        }
    }
    return fmt.Errorf("service at url %s not found", url)
>>
    The receiver [r] is the address of the global [reg], the only registry
    there is, so both names denote the same slice [s].  [append] copies the
    [i+1] values of [s[:i+1]] (as they are before the copy) behind the [i]
    values of [s[:i]], in place when the capacity allows it and into a new
    array otherwise: either way the new slice is [s[:i]] followed by
    [s[:i+1]]. *)
Fixpoint remove_loop (regs : list Registration) (url : string) (w : World)
    (i : nat) (rest : list Registration) : result :=
  match rest with
  | [] => {| err := Some (ErrServiceNotFound url); registrations := regs;
             spawned := []; world := w |}
  | x :: rest' =>
      if decide (ServiceURL x = url) then
        {| err := None;
           registrations := take i regs ++ take (S i) regs;
           spawned := notify regs
                        {| Added := [];
                           Removed := [mkPatchEntry (RServiceName x) (ServiceURL x)] |};
           world := w |}
      else remove_loop regs url w (S i) rest'
  end.

(** [func (r *registry) remove(url string) error] *)
Definition remove (regs : list Registration) (url : string) (w : World)
    : result :=
  remove_loop regs url w 0 regs.

(** The requests [RegistryService.ServeHTTP] tells apart: a POST whose body
    decodes to a [Registration] or does not, a DELETE with its body, and any
    other method. *)
Inductive request :=
  | POST (body : option Registration)
  | DELETE (payload : string)
  | OtherMethod.

(** [func (s RegistryService) ServeHTTP(w, r)]: the status code of the
    answer (200 when the handler writes no header) and the call's result. *)
Definition ServeHTTP (regs : list Registration) (rq : request) (w : World)
    : nat * result :=
  let same := {| err := None; registrations := regs; spawned := [];
                 world := w |} in
  match rq with
  | POST None => (400, same)
  | POST (Some r) =>
      let res := add regs r w in
      (match err res with Some _ => 400 | None => 200 end, res)
  | DELETE payload =>
      let res := remove regs payload w in
      (match err res with Some _ => 500 | None => 200 end, res)
  | OtherMethod => (405, same)
  end.

(** [var reg = registry{registrations: make([]Registration, 0), ...}] *)
Definition reg : list Registration := [].

(** An operation a client can ask of the registry. *)
Inductive op :=
  | OpAdd (r : Registration)
  | OpRemove (url : string).

(** The registry after one operation and after a sequence of them; the
    goroutines each call starts run to their end before the next call. *)
Definition step (st : list Registration * World) (o : op)
    : list Registration * World :=
  let res := match o with
             | OpAdd r => add st.1 r st.2
             | OpRemove url => remove st.1 url st.2
             end in
  (registrations res, run_all (spawned res) (world res)).

Definition run (ops : list op) (w : World) : list Registration * World :=
  foldl step (reg, w) ops.

End Transport.

Arguments net {Net} _.
Arguments sent {Net} _.
Arguments mkWorld {Net} _ _.
Arguments err {Net} _.
Arguments registrations {Net} _.
Arguments spawned {Net} _.
Arguments world {Net} _.
Arguments sendPatch {Net} http_post p url w.
Arguments sendRequireServices {Net} http_post registrations reg w.
Arguments notify_go {Net} http_post fullPatch reg reqs w.
Arguments run_goroutine {Net} http_post g w.
Arguments deliveries {Net} http_post g w.
Arguments run_all {Net} http_post gs w.
Arguments add {Net} http_post regs reg w.
Arguments remove_loop {Net} regs url w i rest.
Arguments remove {Net} regs url w.
Arguments ServeHTTP {Net} http_post regs rq w.
Arguments step {Net} http_post st o.
Arguments run {Net} http_post ops w.

(** A network on which every request succeeds. *)
Definition reliable (url : string) (p : patch) (n : unit)
    : option string * unit := (None, n).

(** A patch that carries the single entry [e], as Added or as Removed: the
    two shapes [add] and [remove] hand to [notify]. *)
Definition single (e : patchEntry) (fp : patch) : Prop :=
  fp = mkPatch [e] [] ∨ fp = mkPatch [] [e].

(** A network on which only the requests to [ok] succeed. *)
Definition reaches (ok : string) (url : string) (p : patch) (n : unit)
    : option string * unit :=
  (if decide (url = ok) then None else Some "connection refused", n).

(** A network on which every request fails. *)
Definition unreachable (url : string) (p : patch) (n : unit)
    : option string * unit := (Some "connection refused", n).

(** The world before anything was sent. *)
Definition quiet : World unit := mkWorld tt [].

(** What a request meets on the network: no answer at all, or an answer
    with its status code. *)
Inductive reply :=
  | NoAnswer (msg : string)
  | Answer (status : nat).

(** The error of [_, err = http.Post(url, "application/json", ...)] in
    [sendPatch]: [http.Post] reports an error only when no answer arrives.
    The status code of an answer is in the response, which [sendPatch]
    drops without reading it. *)
Definition Post_err (a : reply) : option string :=
  match a with
  | NoAnswer msg => Some msg
  | Answer _ => None
  end.

(** The oracle [http_post] of a network that is given by its replies. *)
Definition post_of {Net : Type}
    (replies : string -> patch -> Net -> reply * Net)
    (url : string) (p : patch) (n : Net) : option string * Net :=
  let '(a, n') := replies url p n in (Post_err a, n').

(** A patch is acknowledged when the answer has the status OK. *)
Definition acknowledged (a : reply) : Prop := a = Answer 200.

(** A network on which every request is answered 500. *)
Definition refusing (url : string) (p : patch) (n : unit) : reply * unit :=
  (Answer 500, n).

End Registry.

(** ** Registry and clients together *)

Module Cluster.

Section Wire.

(** What a string of a patch has become when the patch has gone through
    [json.Marshal] in [sendPatch] and through [dec.Decode] in the client's
    handler: the encoder replaces bytes that are not valid UTF-8, so this is
    not the identity on every string. Nothing is assumed about it. *)
Variable wire : string -> string.

(** An entry and a patch as the client decodes them. *)
Definition wire_entry (e : patchEntry) : patchEntry :=
  mkPatchEntry (wire (Name e)) (wire (URL e)).

Definition wire_patch (p : patch) : patch :=
  mkPatch (wire_entry <$> Added p) (wire_entry <$> Removed p).

(** A network of client processes: the update URL of each running client,
    mapped to that client's provider cache.  A request to the update URL of
    a running client reaches its [serviceUpdateHandler], which decodes the
    patch that [sendPatch] encoded; a request to any other URL fails in
    [http.Post].  [sendPatch] does not look at the status of the answer. *)
Definition post (url : string) (p : patch)
    (n : gmap string (gmap string (list string)))
    : option string * gmap string (gmap string (list string)) :=
  match n !! url with
  | Some cache =>
      (None,
       <[url := (Providers.ServeHTTP "POST" (Some (wire_patch p)) cache).2]> n)
  | None => (Some "connection refused", n)
  end.

End Wire.

(** The client at [url] lists [u] among the providers of [name]. *)
Definition knows (n : gmap string (gmap string (list string)))
    (url : string) (name : ServiceName) (u : string) : Prop :=
  ∃ cache urls, n !! url = Some cache ∧ cache !! name = Some urls ∧ u ∈ urls.

End Cluster.

(** ** Measures used to state the properties *)

Module Count.

(** How many times [url] is listed for [name] in a cache. *)
Definition listed (s : gmap string (list string)) (name : ServiceName)
    (url : string) : nat :=
  length (filter (fun x => x = url) (default [] (s !! name))).

(** How many entries of a patch list are [{name, url}]. *)
Definition mentions (es : list patchEntry) (name : ServiceName)
    (url : string) : nat :=
  length (filter (fun e => e = mkPatchEntry name url) es).

End Count.

(** ** The operations as the specification words them

    These definitions follow the prose of the specification, not the code;
    the theorems below compare them with the embedding above. *)

Module Spec.

(** The entry that describes an instance in a patch. *)
Definition entry (r : Registration) : patchEntry :=
  mkPatchEntry (RServiceName r) (ServiceURL r).

(** Removal by filtering: every registration whose URL is not [url] stays,
    in its original relative order. *)
Definition Remove (regs : list Registration) (url : string)
    : list Registration :=
  filter (fun r => ServiceURL r ≠ url) regs.

(** The dependents of a topology event about service [S] at URL [U]: the
    live registrations that require [S], the subject of the event apart. *)
Definition dependents (S : ServiceName) (U : string)
    (regs : list Registration) : list Registration :=
  filter (fun r => S ∈ RequireServices r ∧ ServiceURL r ≠ U) regs.

(** The entries of the initial sync of [reg]: the instances registered
    before [reg] whose name [reg] requires. *)
Definition initial_sync (already : list Registration) (reg : Registration)
    : list patchEntry :=
  entry <$> filter (fun r => RServiceName r ∈ RequireServices reg) already.

(** Deleting the first exact match of [u] from a list of URLs. *)
Fixpoint delete_first (u : string) (urls : list string) : list string :=
  match urls with
  | [] => []
  | x :: urls' => if decide (x = u) then urls' else x :: delete_first u urls'
  end.

(** An Added entry: append the URL to the list keyed by the name, creating
    the key if it is absent. *)
Definition apply_added (s : gmap string (list string)) (e : patchEntry)
    : gmap string (list string) :=
  <[Name e := default [] (s !! Name e) ++ [URL e]]> s.

(** A Removed entry: delete the first exact match of the URL from the list
    keyed by the name if there is one, and change nothing otherwise. *)
Definition apply_removed (s : gmap string (list string)) (e : patchEntry)
    : gmap string (list string) :=
  match s !! Name e with
  | Some urls =>
      if decide (URL e ∈ urls)
      then <[Name e := delete_first (URL e) urls]> s
      else s
  | None => s
  end.

(** [Apply(p Patch)] *)
Definition Apply (s : gmap string (list string)) (p : patch)
    : gmap string (list string) :=
  foldl apply_removed (foldl apply_added s (Added p)) (Removed p).

End Spec.

(** ** Sample data for the closed examples *)

Module Sample.

Definition svcA : Registration := mkRegistration "A" "http://a:1" [] "http://a:1/services".
Definition svcB : Registration := mkRegistration "B" "http://b:1" [] "http://b:1/services".

(** An instance of [A] that depends on [B]. *)
Definition needsB : Registration :=
  mkRegistration "A" "http://a:2" ["B"] "http://a:2/services".

(** An instance that lists its own service name among its dependencies. *)
Definition selfish : Registration :=
  mkRegistration "A" "http://a:3" ["A"] "http://a:3/services".

(** A registration with neither a name nor a URL. *)
Definition blank : Registration := mkRegistration EmptyString EmptyString [] "http://x:1/services".

(** A cluster in which the update handler of [needsB] is running, with an
    empty cache. *)
Definition clients : gmap string (gmap string (list string)) :=
  {[ServiceUpdateURL needsB := ∅]}.

(** The same cluster once [needsB] has heard of [svcB]. *)
Definition informed : gmap string (gmap string (list string)) :=
  {[ServiceUpdateURL needsB := {["B" := [ServiceURL svcB]]}]}.

End Sample.

(** * Properties *)

(** ** The provider cache *)

Section ProviderCache.

Import Providers.

Implicit Types (s : gmap string (list string)) (e : patchEntry).
Implicit Types (pat : patch) (u : string) (urls : list string).

Lemma Update_added_apply s e : Update_added s e = Spec.apply_added s e.
Proof.
  unfold Update_added, Spec.apply_added.
  destruct (s !! Name e) as [urls|] eqn:Hs.
  - by rewrite Hs.
  - by rewrite lookup_insert_eq, insert_insert_eq.
Qed.

Lemma delete_first_middle u (l1 l2 : list string) :
  u ∉ l1 → Spec.delete_first u (l1 ++ u :: l2) = l1 ++ l2.
Proof.
  induction l1 as [|x l1 IH]; simpl; intros Hu.
  - by rewrite decide_True.
  - apply not_elem_of_cons in Hu as [Hx Hu].
    rewrite decide_False by congruence. by rewrite IH.
Qed.

Lemma delete_first_absent u urls : u ∉ urls → Spec.delete_first u urls = urls.
Proof.
  induction urls as [|x urls IH]; simpl; [done|]; intros Hu.
  apply not_elem_of_cons in Hu as [Hx Hu].
  rewrite decide_False by congruence. by rewrite IH.
Qed.

(** The scan at index [length pre], having found no match in [pre]. *)
Lemma Update_removed_scan_apply s e (pre rest : list string) :
  URL e ∉ pre →
  Update_removed_scan s e (pre ++ rest) (length pre) rest =
    if decide (URL e ∈ rest)
    then <[Name e := Spec.delete_first (URL e) (pre ++ rest)]> s
    else s.
Proof.
  revert pre. induction rest as [|x rest IH]; intros pre Hpre;
    cbn [Update_removed_scan].
  - rewrite decide_False; [done | apply not_elem_of_nil].
  - destruct (decide (x = URL e)) as [->|Hx].
    + rewrite decide_True by left.
      rewrite delete_first_middle by done.
      rewrite take_app_length.
      replace (S (length pre)) with (length (pre ++ [URL e]))
        by (rewrite length_app; simpl; lia).
      by rewrite (cons_middle _ pre rest), app_assoc, drop_app_length.
    + specialize (IH (pre ++ [x])).
      rewrite length_app, Nat.add_1_r, <- app_assoc in IH. simpl in IH.
      rewrite IH.
      * destruct (decide (URL e ∈ rest)) as [Hin|Hnin].
        -- rewrite decide_True; [done | by right].
        -- rewrite decide_False; [done|].
           intros [?|?]%elem_of_cons; congruence.
      * intros [?|Hin]%elem_of_app; [done|].
        apply list_elem_of_singleton in Hin. congruence.
Qed.

Lemma Update_removed_apply s e : Update_removed s e = Spec.apply_removed s e.
Proof.
  unfold Update_removed, Spec.apply_removed.
  destruct (s !! Name e) as [urls|]; [|done].
  apply (Update_removed_scan_apply s e [] urls), not_elem_of_nil.
Qed.

Lemma foldl_ext_eq {A B} (f g : A → B → A) (l : list B) (a : A) :
  (∀ x y, f x y = g x y) → foldl f a l = foldl g a l.
Proof.
  intros Hfg. revert a. induction l as [|y l IH]; intros a; simpl; [done|].
  by rewrite Hfg, IH.
Qed.

Lemma Update_Apply s pat : Update s pat = Spec.Apply s pat.
Proof.
  unfold Update, Spec.Apply.
  rewrite (foldl_ext_eq _ _ _ _ Update_added_apply).
  apply foldl_ext_eq, Update_removed_apply.
Qed.

Lemma apply_added_keeps s e (name : string) :
  is_Some (s !! name) → is_Some (Spec.apply_added s e !! name).
Proof.
  unfold Spec.apply_added. intros Hs.
  destruct (decide (Name e = name)) as [<-|Hne].
  - rewrite lookup_insert_eq. eauto.
  - by rewrite lookup_insert_ne.
Qed.

Lemma apply_added_creates s e : is_Some (Spec.apply_added s e !! Name e).
Proof. unfold Spec.apply_added. rewrite lookup_insert_eq. eauto. Qed.

Lemma apply_removed_keeps s e (name : string) :
  is_Some (s !! name) → is_Some (Spec.apply_removed s e !! name).
Proof.
  unfold Spec.apply_removed. intros Hs.
  destruct (s !! Name e) as [urls|]; [|done].
  destruct (decide (URL e ∈ urls)); [|done].
  destruct (decide (Name e = name)) as [<-|Hne].
  - rewrite lookup_insert_eq. eauto.
  - by rewrite lookup_insert_ne.
Qed.

Lemma foldl_keeps {B} (f : gmap string (list string) → B → gmap string (list string))
    (l : list B) s (name : string) :
  (∀ s' y, is_Some (s' !! name) → is_Some (f s' y !! name)) →
  is_Some (s !! name) → is_Some (foldl f s l !! name).
Proof.
  intros Hf. revert s. induction l as [|y l IH]; intros s Hs; simpl; [done|].
  by apply IH, Hf.
Qed.

Lemma Update_keeps s pat (name : string) :
  is_Some (s !! name) → is_Some (Update s pat !! name).
Proof.
  rewrite Update_Apply. unfold Spec.Apply. intros Hs.
  apply foldl_keeps; [intros; by apply apply_removed_keeps|].
  apply foldl_keeps; [intros; by apply apply_added_keeps|done].
Qed.

Lemma Update_creates s pat e :
  e ∈ Added pat → is_Some (Update s pat !! Name e).
Proof.
  rewrite Update_Apply. unfold Spec.Apply. intros He.
  apply foldl_keeps; [intros; by apply apply_removed_keeps|].
  revert s. induction (Added pat) as [|x l IH]; intros s; simpl.
  - by apply elem_of_nil in He.
  - apply elem_of_cons in He as [->|He]; [|by apply IH].
    apply foldl_keeps; [intros; by apply apply_added_keeps|].
    apply apply_added_creates.
Qed.

(** C8. [Update] is the [Apply] of the specification: every Added entry
    appends its URL to the list keyed by its name, creating the key when it
    is absent, and every Removed entry deletes the first exact match of its
    URL from the list keyed by its name when there is one and changes
    nothing otherwise; deleting the first match of [u] from
    [l1 ++ u :: l2], where [u] is not in [l1], leaves [l1 ++ l2]. *)
Theorem Update_refines_Apply s pat :
  Update s pat = Spec.Apply s pat ∧
  (∀ e, Update_added s e !! Name e = Some (default [] (s !! Name e) ++ [URL e])) ∧
  (∀ e l1 l2, s !! Name e = Some (l1 ++ URL e :: l2) → URL e ∉ l1 →
     Update_removed s e = <[Name e := l1 ++ l2]> s) ∧
  (∀ e urls, s !! Name e = Some urls → URL e ∉ urls → Update_removed s e = s) ∧
  (∀ e, s !! Name e = None → Update_removed s e = s).
Proof.
  split; [apply Update_Apply|]. repeat split.
  - intros e. rewrite Update_added_apply. apply lookup_insert_eq.
  - intros e l1 l2 Hs Hl1. rewrite Update_removed_apply.
    unfold Spec.apply_removed. rewrite Hs.
    rewrite decide_True by (apply elem_of_app; right; left).
    by rewrite delete_first_middle.
  - intros e urls Hs Hu. rewrite Update_removed_apply.
    unfold Spec.apply_removed. rewrite Hs. by rewrite decide_False.
  - intros e Hs. unfold Update_removed. by rewrite Hs.
Qed.

(** The second clause of [Update_refines_Apply] on a cache that lists the
    same URL twice: only the first occurrence goes. *)
Lemma Update_refines_Apply_witness :
  Update_removed {["X" := ["u"; "v"; "u"]]} (mkPatchEntry "X" "u")
  = <["X" := ["v"; "u"]]> {["X" := ["u"; "v"; "u"]]}.
Proof.
  apply (proj1 (proj2 (proj2
           (Update_refines_Apply {["X" := ["u"; "v"; "u"]]} (mkPatch [] []))))
         (mkPatchEntry "X" "u") [] ["v"; "u"]).
  - reflexivity.
  - apply not_elem_of_nil.
Defined.

(** C2. From the empty cache, the patch that adds [{X,u1}] followed by the
    patch that removes it leaves [X] mapped to the empty list; [get] then
    finds the key, indexes the empty list and panics: it does not return the
    "no providers available" error. *)
Theorem get_after_add_then_remove (X u1 : string) (idx : nat) :
  let s := Update (Update prov (mkPatch [mkPatchEntry X u1] []))
                  (mkPatch [] [mkPatchEntry X u1]) in
  s !! X = Some [] ∧
  get s X idx = Panics "index out of range" ∧
  get s X idx ≠ Returns (EmptyString, Some (ErrNoProviders X)).
Proof.
  assert (Hs : Update (Update prov (mkPatch [mkPatchEntry X u1] []))
                 (mkPatch [] [mkPatchEntry X u1]) !! X = Some []).
  { rewrite !Update_Apply. unfold Spec.Apply, prov. simpl.
    unfold Spec.apply_added; simpl. rewrite lookup_empty; simpl.
    unfold Spec.apply_removed; simpl. rewrite lookup_insert_eq.
    rewrite decide_True by left. simpl. rewrite decide_True by done.
    apply lookup_insert_eq. }
  simpl. split; [done|]. unfold get. rewrite Hs. simpl. by split.
Qed.

(** C10. Once an Added entry has created the key of a service name, the key
    is there after any further patches; and when the list of a name holds a
    single URL, the patch that removes it leaves the name mapped to the empty
    list, not absent. *)
Theorem Update_never_deletes_a_key s pat (pats : list patch) e :
  e ∈ Added pat →
  let s' := foldl Update (Update s pat) pats in
  is_Some (s' !! Name e) ∧
  ∀ u, s' !! Name e = Some [u] →
       Update s' (mkPatch [] [mkPatchEntry (Name e) u]) !! Name e = Some [].
Proof.
  intros He s'. split.
  - subst s'. apply foldl_keeps; [intros; by apply Update_keeps|].
    by apply Update_creates.
  - intros u Hu.
    rewrite Update_Apply. unfold Spec.Apply; simpl.
    unfold Spec.apply_removed; simpl. rewrite Hu.
    rewrite decide_True by left. simpl. rewrite decide_True by done.
    apply lookup_insert_eq.
Qed.

Lemma Update_never_deletes_a_key_witness :
  is_Some (foldl Update (Update prov (mkPatch [mkPatchEntry "X" "u1"] []))
                 [mkPatch [] [mkPatchEntry "X" "u1"]] !! "X").
Proof.
  apply (Update_never_deletes_a_key prov (mkPatch [mkPatchEntry "X" "u1"] [])
           [mkPatch [] [mkPatchEntry "X" "u1"]] (mkPatchEntry "X" "u1")).
  simpl. left.
Defined.

End ProviderCache.

(** ** The registry *)

Section RegistryFacts.

Import Registry.

Context {Net : Type}.
Variable http_post : string → patch → Net → option string * Net.

Implicit Types (regs : list Registration) (r x : Registration).
Implicit Types (w : World Net) (url : string) (e : patchEntry).

Lemma sendPatch_err (p : patch) url w :
  (sendPatch http_post p url w).1 = ErrTransport <$> (http_post url p (net w)).1.
Proof. unfold sendPatch. by destruct (http_post url p (net w)). Qed.

Lemma sendPatch_sent (p : patch) url w :
  sent (sendPatch http_post p url w).2 = sent w ++ [(url, p)].
Proof. unfold sendPatch. by destruct (http_post url p (net w)). Qed.

(** What one goroutine posts for a single-entry patch: nothing unless its
    registration requires the entry's name, and then only that patch, to
    the registration's own update URL. *)
Lemma notify_go_single e (fp : patch) r (reqs : list string) w :
  single e fp →
  ∃ ds, sent (notify_go http_post fp r reqs w) = sent w ++ ds ∧
        (ds ≠ [] ↔ Name e ∈ reqs) ∧
        ∀ d, d ∈ ds → d = (ServiceUpdateURL r, fp).
Proof.
  intros Hfp. revert w. induction reqs as [|q reqs IH]; intros w.
  - exists []. cbn [notify_go]. rewrite app_nil_r. split; [done|]. split.
    + split; [done | by intros ?%elem_of_nil].
    + by intros d ?%elem_of_nil.
  - cbn [notify_go].
    destruct (decide (Name e = q)) as [<-|Hne].
    + set (q := Name e).
      assert (Hp : (foldl (notify_pick q) ([], (foldl (notify_pick q) ([], false) (Added fp)).2) (Removed fp)).2 = true
                 ∧ mkPatch (foldl (notify_pick q) ([], false) (Added fp)).1
                     (foldl (notify_pick q) ([], (foldl (notify_pick q) ([], false) (Added fp)).2) (Removed fp)).1 = fp).
      { destruct Hfp as [-> | ->]; simpl; unfold notify_pick;
          rewrite decide_True by done; by simpl. }
      destruct Hp as [-> ->].
      pose proof (sendPatch_sent fp (ServiceUpdateURL r) w) as Hsent.
      destruct (sendPatch http_post fp (ServiceUpdateURL r) w) as [[err|] w'];
        simpl in Hsent.
      * exists [(ServiceUpdateURL r, fp)]. split; [done|]. split.
        -- split; [intros _; left; done | done].
        -- by intros d ->%list_elem_of_singleton.
      * destruct (IH w') as (ds & Hds & _ & Hall).
        exists ((ServiceUpdateURL r, fp) :: ds). split.
        { by rewrite Hds, Hsent, <- app_assoc. }
        split; [split; [intros _; left; done | done]|].
        intros d [->|Hd]%elem_of_cons; [done | by apply Hall].
    + assert (Hp : (foldl (notify_pick q) ([], (foldl (notify_pick q) ([], false) (Added fp)).2) (Removed fp)).2 = false).
      { destruct Hfp as [-> | ->]; simpl; unfold notify_pick;
          rewrite decide_False by done; by simpl. }
      rewrite Hp. destruct (IH w) as (ds & Hds & Hiff & Hall).
      exists ds. split; [done|]. split; [|done].
      rewrite Hiff. split; [by right|].
      intros [?|?]%elem_of_cons; [congruence | done].
Qed.

Lemma deliveries_single e (g : goroutine) w :
  single e (go_patch g) →
  sent (run_goroutine http_post g w) = sent w ++ deliveries http_post g w ∧
  (deliveries http_post g w ≠ [] ↔ Name e ∈ RequireServices (go_reg g)) ∧
  ∀ d, d ∈ deliveries http_post g w →
       d = (ServiceUpdateURL (go_reg g), go_patch g).
Proof.
  intros Hfp. unfold deliveries, run_goroutine.
  destruct (notify_go_single e (go_patch g) (go_reg g)
              (RequireServices (go_reg g)) w Hfp) as (ds & -> & Hiff & Hall).
  by rewrite drop_app_length.
Qed.

Lemma notify_regs regs (fp : patch) : go_reg <$> notify regs fp = regs.
Proof.
  unfold notify. rewrite <- list_fmap_compose.
  induction regs as [|x regs IH]; simpl; [done|]. by f_equal.
Qed.

Lemma notify_patch regs (fp : patch) (g : goroutine) :
  g ∈ notify regs fp → go_patch g = fp.
Proof.
  unfold notify. intros (x & -> & _)%list_elem_of_fmap. done.
Qed.

(** The loop of [remove] at index [length pre], no match found in [pre]. *)
Lemma remove_loop_found (pre l1 l2 : list Registration) x url w :
  (∀ y, y ∈ l1 → ServiceURL y ≠ url) → ServiceURL x = url →
  remove_loop (pre ++ l1 ++ x :: l2) url w (length pre) (l1 ++ x :: l2) =
    {| err := None;
       registrations := (pre ++ l1) ++ (pre ++ l1) ++ [x];
       spawned := notify (pre ++ l1 ++ x :: l2)
                    (mkPatch [] [Spec.entry x]);
       world := w |}.
Proof.
  revert pre. induction l1 as [|y l1 IH]; intros pre Hl1 Hx.
  - cbn [app remove_loop]. rewrite decide_True by done.
    rewrite app_nil_r, take_app_length.
    replace (S (length pre)) with (length (pre ++ [x]))
      by (rewrite length_app; simpl; lia).
    by rewrite (cons_middle x pre l2), app_assoc, take_app_length.
  - cbn [app remove_loop].
    rewrite decide_False by (apply Hl1; left).
    specialize (IH (pre ++ [y])).
    rewrite length_app, Nat.add_1_r, <- !app_assoc in IH. simpl in IH.
    rewrite IH; [| intros z Hz; apply Hl1; by right | done].
    by rewrite <- !app_assoc.
Qed.

Lemma remove_loop_missing (pre rest : list Registration) url w (i : nat) :
  (∀ y, y ∈ rest → ServiceURL y ≠ url) →
  remove_loop pre url w i rest =
    {| err := Some (ErrServiceNotFound url); registrations := pre;
       spawned := []; world := w |}.
Proof.
  revert i. induction rest as [|y rest IH]; intros i Hrest; [done|].
  cbn [remove_loop]. rewrite decide_False by (apply Hrest; left).
  apply IH. intros z Hz. apply Hrest. by right.
Qed.

Lemma remove_found (l1 l2 : list Registration) x url w :
  (∀ y, y ∈ l1 → ServiceURL y ≠ url) → ServiceURL x = url →
  remove (l1 ++ x :: l2) url w =
    {| err := None;
       registrations := l1 ++ l1 ++ [x];
       spawned := notify (l1 ++ x :: l2) (mkPatch [] [Spec.entry x]);
       world := w |}.
Proof. intros Hl1 Hx. apply (remove_loop_found [] l1 l2 x url w Hl1 Hx). Qed.

(** A successful [remove] never takes the matching registration out: it is
    the last member of the new slice, behind two copies of what preceded it. *)
Lemma remove_found_keeps (l1 l2 : list Registration) x url w :
  (∀ y, y ∈ l1 → ServiceURL y ≠ url) → ServiceURL x = url →
  err (remove (l1 ++ x :: l2) url w) = None ∧
  x ∈ registrations (remove (l1 ++ x :: l2) url w) ∧
  length (registrations (remove (l1 ++ x :: l2) url w)) = 2 * length l1 + 1.
Proof.
  intros Hl1 Hx. rewrite (remove_found l1 l2 x url w Hl1 Hx); simpl.
  split; [done|]. split.
  - rewrite !elem_of_app. right; right. left.
  - rewrite !length_app; simpl. lia.
Qed.

Lemma add_unfold regs r w :
  add http_post regs r w =
    {| err := ErrTransport <$>
                (http_post (ServiceUpdateURL r)
                   (sendRequireServices_patch (regs ++ [r]) r) (net w)).1;
       registrations := regs ++ [r];
       spawned := notify (regs ++ [r]) (mkPatch [Spec.entry r] []);
       world := (sendRequireServices http_post (regs ++ [r]) r w).2 |}.
Proof.
  unfold add, sendRequireServices.
  rewrite <- sendPatch_err.
  by destruct (sendPatch http_post _ _ w).
Qed.

(** The inner loop of [sendRequireServices] appends the entry of
    [serviceReg] once for each occurrence of its name in the requirements. *)
Lemma sendRequireServices_inner x (added : list patchEntry) (reqs : list string) :
  foldl (sendRequireServices_body x) added reqs =
    added ++ replicate (length (filter (λ q, RServiceName x = q) reqs))
                       (Spec.entry x).
Proof.
  revert added. induction reqs as [|q reqs IH]; intros added; simpl.
  - by rewrite app_nil_r.
  - rewrite IH. unfold sendRequireServices_body, filter. simpl.
    destruct (decide (RServiceName x = q)); simpl; [|done].
    by rewrite <- app_assoc.
Qed.

Lemma sendRequireServices_outer regs (added : list patchEntry) (reqs : list string) :
  foldl (λ added x, foldl (sendRequireServices_body x) added reqs) added regs =
    added ++ (regs ≫= λ x,
                replicate (length (filter (λ q, RServiceName x = q) reqs))
                          (Spec.entry x)).
Proof.
  revert added. induction regs as [|x regs IH]; intros added; simpl.
  - by rewrite app_nil_r.
  - by rewrite IH, sendRequireServices_inner, <- app_assoc.
Qed.

Lemma occurrences_pos (n : string) (reqs : list string) :
  length (filter (λ q, n = q) reqs) ≠ 0 ↔ n ∈ reqs.
Proof.
  induction reqs as [|q reqs IH]; simpl.
  - split; [done | by intros ?%elem_of_nil].
  - unfold filter; simpl. fold (filter (λ q, n = q) reqs).
    destruct (decide (n = q)) as [<-|Hne]; simpl.
    + split; [intros _; left | done].
    + rewrite IH. split; [by right|].
      intros [?|?]%elem_of_cons; [congruence | done].
Qed.

Lemma occurrences_NoDup (n : string) (reqs : list string) :
  NoDup reqs →
  length (filter (λ q, n = q) reqs) = if decide (n ∈ reqs) then 1 else 0.
Proof.
  induction 1 as [|q reqs Hq Hnd IH].
  - by rewrite decide_False by apply not_elem_of_nil.
  - unfold filter; simpl. fold (filter (λ q, n = q) reqs).
    destruct (decide (n = q)) as [<-|Hne]; simpl.
    + rewrite decide_True by left. f_equal.
      destruct (length (filter (λ q, n = q) reqs)) eqn:Hlen; [done|].
      exfalso. apply Hq, occurrences_pos. by rewrite Hlen.
    + rewrite IH. destruct (decide (n ∈ reqs)) as [Hin|Hnin].
      * rewrite decide_True; [done | by right].
      * rewrite decide_False; [done|].
        intros [?|?]%elem_of_cons; [congruence | done].
Qed.

Lemma initial_entries_elem regs r e :
  e ∈ Added (sendRequireServices_patch regs r) ↔
  ∃ x, x ∈ regs ∧ RServiceName x ∈ RequireServices r ∧ e = Spec.entry x.
Proof.
  unfold sendRequireServices_patch; simpl.
  rewrite sendRequireServices_outer; simpl. rewrite list_elem_of_bind.
  split.
  - intros (x & [-> Hn]%elem_of_replicate & Hx). exists x.
    by rewrite <- occurrences_pos.
  - intros (x & Hx & Hn & ->). exists x. split; [|done].
    apply elem_of_replicate. by rewrite occurrences_pos.
Qed.

Lemma initial_entries_NoDup regs r :
  NoDup (RequireServices r) →
  Added (sendRequireServices_patch regs r) = Spec.initial_sync regs r.
Proof.
  intros Hnd. unfold sendRequireServices_patch, Spec.initial_sync; simpl.
  rewrite sendRequireServices_outer; simpl.
  induction regs as [|x regs IH]; [done|].
  rewrite filter_cons. cbn [mbind list_bind]. fold (@mbind list _).
  rewrite occurrences_NoDup by done.
  destruct (decide (RServiceName x ∈ RequireServices r)); simpl.
  - f_equal. apply IH.
  - apply IH.
Qed.


End RegistryFacts.

(** ** The claims about the registry *)

Section RegistryClaims.

Import Registry.

Context {Net : Type}.
Variable http_post : string → patch → Net → option string * Net.

Implicit Types (regs : list Registration) (r x : Registration).
Implicit Types (w : World Net) (url : string).

(** C3, as the code has it. [add] does not look at the name or the URL:
    every registration, one whose name or URL is empty included, is
    appended, and the only error [add] can return is the error [http.Post]
    reports for the initial-sync request; the handler answers 200 exactly
    when [http.Post] reports none. *)
Theorem add_does_not_validate regs r w :
  registrations (add http_post regs r w) = regs ++ [r] ∧
  err (add http_post regs r w) =
    ErrTransport <$> (http_post (ServiceUpdateURL r)
                        (sendRequireServices_patch (regs ++ [r]) r) (net w)).1 ∧
  ((ServeHTTP http_post regs (POST (Some r)) w).1 = 200 ↔
   (http_post (ServiceUpdateURL r)
      (sendRequireServices_patch (regs ++ [r]) r) (net w)).1 = None).
Proof.
  unfold ServeHTTP. rewrite add_unfold; simpl.
  split; [done|]. split; [done|].
  by destruct (http_post _ _ (net w)).1.
Qed.

(** C4, as the code has it. [add] and a successful [remove] start one
    goroutine for every registration in the slice, the subject of the event
    included ([add] has appended it already, [remove] has not taken it out
    yet). The goroutine of a registration posts something exactly when the
    registration requires the service of the event, each of its requests
    goes to the registration's own update URL and carries the patch with the
    single entry of the event, and its requests are what it adds to the log. *)
Theorem fan_out_targets regs w :
  (∀ r (w' : World Net),
     let res := add http_post regs r w in
     go_reg <$> spawned res = regs ++ [r] ∧
     ∀ g, g ∈ spawned res →
       sent (run_goroutine http_post g w') = sent w' ++ deliveries http_post g w' ∧
       (deliveries http_post g w' ≠ [] ↔
          RServiceName r ∈ RequireServices (go_reg g)) ∧
       ∀ d, d ∈ deliveries http_post g w' →
         d = (ServiceUpdateURL (go_reg g), mkPatch [Spec.entry r] [])) ∧
  (∀ url (l1 l2 : list Registration) x (w' : World Net),
     regs = l1 ++ x :: l2 →
     (∀ y, y ∈ l1 → ServiceURL y ≠ url) → ServiceURL x = url →
     let res := remove regs url w in
     go_reg <$> spawned res = regs ∧
     ∀ g, g ∈ spawned res →
       sent (run_goroutine http_post g w') = sent w' ++ deliveries http_post g w' ∧
       (deliveries http_post g w' ≠ [] ↔
          RServiceName x ∈ RequireServices (go_reg g)) ∧
       ∀ d, d ∈ deliveries http_post g w' →
         d = (ServiceUpdateURL (go_reg g), mkPatch [] [Spec.entry x])).
Proof.
  split.
  - intros r w' res. subst res. rewrite add_unfold; simpl.
    split; [apply notify_regs|]. intros g Hg.
    pose proof (notify_patch _ _ _ Hg) as Hp.
    destruct (deliveries_single http_post (Spec.entry r) g w') as (H1 & H2 & H3).
    { rewrite Hp. by left. }
    rewrite Hp in H3. done.
  - intros url l1 l2 x w' -> Hl1 Hx res. subst res.
    rewrite (remove_found l1 l2 x url w Hl1 Hx); simpl.
    split; [apply notify_regs|]. intros g Hg.
    pose proof (notify_patch _ _ _ Hg) as Hp.
    destruct (deliveries_single http_post (Spec.entry x) g w') as (H1 & H2 & H3).
    { rewrite Hp. by right. }
    rewrite Hp in H3. done.
Qed.

(** C5, as the code has it. [add] returns an error exactly when
    [http.Post] reports one for the initial-sync request to the new
    registration's update URL, that is when no answer arrives, and that
    error is the one it returns; an initial sync that is answered, with
    whatever status, makes [add] return nil. Whatever happens to any other
    request (two networks that reply alike to the initial-sync request give
    the same result), the error is the same; and the new registration is in
    the slice whether [add] returns an error or not. *)
Theorem add_fails_iff_initial_sync_post_errs
    (replies : string → patch → Net → reply * Net) regs r w :
  let first := (replies (ServiceUpdateURL r)
                  (sendRequireServices_patch (regs ++ [r]) r) (net w)).1 in
  let res := add (post_of replies) regs r w in
  (∀ e, err res = Some e ↔ ∃ msg, first = NoAnswer msg ∧ e = ErrTransport msg) ∧
  (∀ status, first = Answer status → err res = None) ∧
  sent (world res) =
    sent w ++ [(ServiceUpdateURL r, sendRequireServices_patch (regs ++ [r]) r)] ∧
  registrations res = regs ++ [r] ∧
  r ∈ registrations res ∧
  ∀ replies' : string → patch → Net → reply * Net,
    (replies' (ServiceUpdateURL r)
       (sendRequireServices_patch (regs ++ [r]) r) (net w)).1 = first →
    err (add (post_of replies') regs r w) = err res.
Proof.
  intros first res. subst first res. rewrite add_unfold.
  cbn [err world registrations].
  assert (Hpost : ∀ rs : string → patch → Net → reply * Net,
            (post_of rs (ServiceUpdateURL r)
               (sendRequireServices_patch (regs ++ [r]) r) (net w)).1 =
            Post_err (rs (ServiceUpdateURL r)
                        (sendRequireServices_patch (regs ++ [r]) r) (net w)).1).
  { intros rs. unfold post_of. by destruct (rs _ _ (net w)). }
  rewrite Hpost.
  destruct (replies (ServiceUpdateURL r) _ (net w)).1 as [msg|status] eqn:Hfirst.
  - split; [|split; [|split; [|split; [|split]]]].
    + intros e. simpl. split.
      * intros [= <-]. by exists msg.
      * by intros (msg' & [= <-] & ->).
    + intros status. discriminate.
    + unfold sendRequireServices. apply sendPatch_sent.
    + done.
    + apply elem_of_app; right; left.
    + intros replies' Hsame. rewrite add_unfold. cbn [err].
      by rewrite Hpost, Hsame.
  - split; [|split; [|split; [|split; [|split]]]].
    + intros e. simpl. split; [done|]. by intros (msg' & ? & _).
    + reflexivity.
    + unfold sendRequireServices. apply sendPatch_sent.
    + done.
    + apply elem_of_app; right; left.
    + intros replies' Hsame. rewrite add_unfold. cbn [err].
      by rewrite Hpost, Hsame.
Qed.

(** C6. When no registration has the URL [url], [remove] returns the
    not-found error, leaves the slice as it is, starts no goroutine and
    sends nothing. *)
Theorem remove_unknown_url regs url w :
  (∀ x, x ∈ regs → ServiceURL x ≠ url) →
  remove regs url w =
    {| err := Some (ErrServiceNotFound url); registrations := regs;
       spawned := []; world := w |}.
Proof. intros Hregs. by apply remove_loop_missing. Qed.

(** C7, as the code has it. The initial-sync request of [add] goes to the
    new registration's update URL with a patch whose Removed list is empty
    and whose Added entries are those of the registrations in the slice
    after the append, the new one included, whose name is among the new
    registration's requirements. When the requirements list no name twice
    the entries come in the order of the slice, one for each such
    registration, and when moreover the new registration does not require
    its own name they are those of the registrations that were there
    before. In particular, when the new registration requires the name of
    [b] only, has another name itself, and [b] is the one registration of
    that name, the patch is [{Added: [entry of b], Removed: []}]. *)
Theorem initial_sync_patch regs r w :
  let p := sendRequireServices_patch (regs ++ [r]) r in
  sent (world (add http_post regs r w)) = sent w ++ [(ServiceUpdateURL r, p)] ∧
  Removed p = [] ∧
  (∀ e, e ∈ Added p ↔
        ∃ x, x ∈ regs ++ [r] ∧ RServiceName x ∈ RequireServices r ∧
             e = Spec.entry x) ∧
  (NoDup (RequireServices r) → Added p = Spec.initial_sync (regs ++ [r]) r) ∧
  (NoDup (RequireServices r) → RServiceName r ∉ RequireServices r →
     Added p = Spec.initial_sync regs r) ∧
  (∀ b, RequireServices r = [RServiceName b] →
        RServiceName r ≠ RServiceName b →
        filter (λ x, RServiceName x = RServiceName b) regs = [b] →
        p = mkPatch [Spec.entry b] []).
Proof.
  intros p. subst p. rewrite add_unfold. cbn [world].
  assert (Hbefore : NoDup (RequireServices r) →
            RServiceName r ∉ RequireServices r →
            Added (sendRequireServices_patch (regs ++ [r]) r) =
              Spec.initial_sync regs r).
  { intros Hnd Hself. rewrite initial_entries_NoDup by done.
    unfold Spec.initial_sync. rewrite filter_app, filter_cons.
    rewrite decide_False by done. by rewrite filter_nil, app_nil_r. }
  split; [apply sendPatch_sent|]. split; [done|].
  split; [apply initial_entries_elem|].
  split; [apply initial_entries_NoDup|].
  split; [exact Hbefore|].
  intros b Hreq Hname Hone.
  assert (Added (sendRequireServices_patch (regs ++ [r]) r) = [Spec.entry b])
    as Hadded.
  { rewrite Hbefore.
    - unfold Spec.initial_sync. rewrite Hreq.
      rewrite (list_filter_iff _ (λ x, RServiceName x = RServiceName b)).
      + by rewrite Hone.
      + intros x. apply list_elem_of_singleton.
    - rewrite Hreq. apply NoDup_singleton.
    - rewrite Hreq. by intros ?%list_elem_of_singleton. }
  revert Hadded. unfold sendRequireServices_patch; simpl. by intros ->.
Qed.


End RegistryClaims.

(** ** The claims on concrete registries *)

Section Closed.

Import Registry Sample.

(** C1. On the registry [[svcA; svcB]], removing the URL of [svcA] succeeds
    and leaves [[svcA]]: the entry that was to go is still there and the
    other one is gone, where removal by filtering leaves [[svcB]]. Removing
    the URL of [svcB] instead leaves [[svcA; svcA; svcB]]. *)
Theorem remove_keeps_the_entry :
  err (remove [svcA; svcB] (ServiceURL svcA) quiet) = None ∧
  registrations (remove [svcA; svcB] (ServiceURL svcA) quiet) = [svcA] ∧
  Spec.Remove [svcA; svcB] (ServiceURL svcA) = [svcB] ∧
  registrations (remove [svcA; svcB] (ServiceURL svcB) quiet)
    = [svcA; svcA; svcB].
Proof. repeat split. Qed.

(** C3, the counterexample. On a network that works, [add] takes the
    registration with the empty name and the empty URL into the empty
    registry and returns no error; the handler answers 200. *)
Lemma add_accepts_blank :
  (RServiceName blank = EmptyString ∧ ServiceURL blank = EmptyString) ∧
  err (add reliable [] blank quiet) = None ∧
  registrations (add reliable [] blank quiet) = [blank] ∧
  (ServeHTTP reliable [] (POST (Some blank)) quiet).1 = 200.
Proof. repeat split. Qed.

Lemma add_does_not_validate_witness :
  registrations (add reliable [svcA] blank quiet) = [svcA] ++ [blank].
Proof.
  apply (add_does_not_validate reliable [svcA] blank quiet).
Defined.

(** C4, the counterexample. A registration that requires its own service
    name is added to the empty registry: the one goroutine [add] starts is
    the one of that registration, and it posts the patch about the
    registration to the registration itself, which is not among the
    dependents of the event as the specification defines them. *)
Lemma fan_out_reaches_the_subject :
  let res := add reliable [] selfish quiet in
  let g := mkGoroutine selfish (mkPatch [Spec.entry selfish] []) in
  spawned res = [g] ∧
  deliveries reliable g (world res)
    = [(ServiceUpdateURL selfish, mkPatch [Spec.entry selfish] [])] ∧
  Spec.dependents (RServiceName selfish) (ServiceURL selfish)
                  (registrations res) = [].
Proof. repeat split. Qed.

Lemma fan_out_targets_witness :
  go_reg <$> spawned (remove [svcB; needsB] (ServiceURL svcB) quiet)
    = [svcB; needsB].
Proof.
  apply (proj2 (fan_out_targets reliable [svcB; needsB] quiet)
           (ServiceURL svcB) [] [needsB] svcB quiet).
  - reflexivity.
  - intros y Hy. by apply elem_of_nil in Hy.
  - reflexivity.
Defined.

(** C5, the counterexample. The initial-sync request is answered 500, so
    the patch is not acknowledged, and [add] returns nil all the same. *)
Lemma add_misses_a_refused_initial_sync :
  (refusing (ServiceUpdateURL needsB)
     (sendRequireServices_patch ([svcB] ++ [needsB]) needsB) tt).1 = Answer 500 ∧
  ¬ acknowledged
      (refusing (ServiceUpdateURL needsB)
         (sendRequireServices_patch ([svcB] ++ [needsB]) needsB) tt).1 ∧
  err (add (post_of refusing) [svcB] needsB quiet) = None.
Proof. repeat split. discriminate. Qed.

Lemma remove_unknown_url_witness :
  remove [svcA; svcB] "http://c:1" quiet =
    {| err := Some (ErrServiceNotFound "http://c:1");
       registrations := [svcA; svcB]; spawned := []; world := quiet |}.
Proof.
  apply (remove_unknown_url [svcA; svcB] "http://c:1" quiet).
  intros x [->|[->|Hx]%elem_of_cons]%elem_of_cons.
  - discriminate.
  - discriminate.
  - by apply elem_of_nil in Hx.
Defined.

(** C7, the counterexample. A registration that requires its own service
    name is added to the empty registry: no instance was registered before
    it, and its initial-sync patch lists the registration itself. *)
Lemma initial_sync_lists_the_newcomer :
  sent (world (add reliable [] selfish quiet))
    = [(ServiceUpdateURL selfish, mkPatch [Spec.entry selfish] [])] ∧
  Spec.initial_sync [] selfish = [] ∧
  mkPatch [Spec.entry selfish] [] ≠ mkPatch (Spec.initial_sync [] selfish) [].
Proof. repeat split. discriminate. Qed.

(** The example of the specification: [needsB] requires ["B"] and [svcB]
    is the one live instance of it. *)
Lemma initial_sync_patch_witness :
  sendRequireServices_patch ([svcB] ++ [needsB]) needsB
    = mkPatch [mkPatchEntry "B" (ServiceURL svcB)] [].
Proof.
  destruct (initial_sync_patch reliable [svcB] needsB quiet)
    as (_ & _ & _ & _ & _ & Hone).
  apply (Hone svcB).
  - reflexivity.
  - discriminate.
  - reflexivity.
Defined.



End Closed.

(** * Further properties of the code *)

(** ** [providers.Update] and [providers.get] *)

Section CacheContents.

Import Providers.

Implicit Types (s : gmap string (list string)) (e : patchEntry).
Implicit Types (pat : patch) (u n : string) (urls : list string).

Lemma apply_added_dom s e : dom (Spec.apply_added s e) = {[Name e]} ∪ dom s.
Proof. unfold Spec.apply_added. by rewrite dom_insert_L. Qed.

Lemma apply_removed_dom s e : dom (Spec.apply_removed s e) = dom s.
Proof.
  unfold Spec.apply_removed.
  destruct (s !! Name e) as [urls|] eqn:Hs; [|done].
  destruct (decide (URL e ∈ urls)); [|done].
  rewrite dom_insert_L. apply elem_of_dom_2 in Hs.
  by apply subseteq_union_1_L, singleton_subseteq_l.
Qed.

Lemma foldl_apply_added_dom (es : list patchEntry) s :
  dom (foldl Spec.apply_added s es) = dom s ∪ list_to_set (Name <$> es).
Proof.
  revert s. induction es as [|e es IH]; intros s; simpl.
  - by rewrite (right_id_L ∅ (∪)).
  - rewrite IH, apply_added_dom.
    by rewrite (comm_L (∪) {[Name e]} (dom s)), <- (assoc_L (∪)).
Qed.

Lemma foldl_apply_removed_dom (es : list patchEntry) s :
  dom (foldl Spec.apply_removed s es) = dom s.
Proof.
  revert s. induction es as [|e es IH]; intros s; simpl; [done|].
  by rewrite IH, apply_removed_dom.
Qed.

(** X1. The service names a cache knows after [Update] are those it knew
    before together with the names of the Added entries: a Removed entry
    neither creates a name nor takes one away. *)
Theorem Update_keys s pat :
  dom (Update s pat) = dom s ∪ list_to_set (Name <$> Added pat).
Proof.
  rewrite Update_Apply. unfold Spec.Apply.
  by rewrite foldl_apply_removed_dom, foldl_apply_added_dom.
Qed.

Lemma apply_added_ne s e n :
  Name e ≠ n → Spec.apply_added s e !! n = s !! n.
Proof. intros Hne. unfold Spec.apply_added. by rewrite lookup_insert_ne. Qed.

Lemma apply_removed_ne s e n :
  Name e ≠ n → Spec.apply_removed s e !! n = s !! n.
Proof.
  intros Hne. unfold Spec.apply_removed.
  destruct (s !! Name e) as [urls|]; [|done].
  destruct (decide (URL e ∈ urls)); [|done]. by rewrite lookup_insert_ne.
Qed.

Lemma foldl_other_names (f : gmap string (list string) → patchEntry →
                             gmap string (list string))
    (es : list patchEntry) s n :
  (∀ s' e, Name e ≠ n → f s' e !! n = s' !! n) →
  n ∉ Name <$> es → foldl f s es !! n = s !! n.
Proof.
  intros Hf. revert s. induction es as [|e es IH]; intros s Hn; simpl; [done|].
  rewrite fmap_cons in Hn. apply not_elem_of_cons in Hn as [Hne Hn].
  rewrite IH by done. apply Hf. congruence.
Qed.

(** X2. [Update] leaves alone the list of every service name that no entry
    of the patch carries. *)
Theorem Update_other_names s pat n :
  n ∉ Name <$> Added pat → n ∉ Name <$> Removed pat →
  Update s pat !! n = s !! n.
Proof.
  intros Ha Hr. rewrite Update_Apply. unfold Spec.Apply.
  rewrite (foldl_other_names Spec.apply_removed (Removed pat) _ n);
    [| intros; by apply apply_removed_ne | done].
  apply (foldl_other_names Spec.apply_added (Added pat) s n); [|done].
  intros; by apply apply_added_ne.
Qed.

Lemma Update_other_names_witness :
  Update {["A" := ["a1"]]} (mkPatch [mkPatchEntry "B" "b1"] [mkPatchEntry "B" "b1"])
    !! "A" = ({["A" := ["a1"]]} : gmap string (list string)) !! "A".
Proof.
  apply (Update_other_names {["A" := ["a1"]]}
           (mkPatch [mkPatchEntry "B" "b1"] [mkPatchEntry "B" "b1"]) "A").
  - simpl. intros [?|?%elem_of_nil]%elem_of_cons; [discriminate | done].
  - simpl. intros [?|?%elem_of_nil]%elem_of_cons; [discriminate | done].
Defined.

Lemma entry_eq_dec_split e n u :
  e = mkPatchEntry n u ↔ Name e = n ∧ URL e = u.
Proof. destruct e as [n' u']; simpl. split; [by intros [= -> ->] | by intros [-> ->]]. Qed.

Lemma listed_apply_added s e n u :
  Count.listed (Spec.apply_added s e) n u =
    Count.listed s n u + (if decide (e = mkPatchEntry n u) then 1 else 0).
Proof.
  unfold Count.listed, Spec.apply_added.
  destruct (decide (Name e = n)) as [<-|Hne].
  - rewrite lookup_insert_eq; simpl. rewrite filter_app, length_app.
    f_equal. rewrite filter_cons, filter_nil.
    destruct (decide (URL e = u)) as [<-|Hu].
    + rewrite decide_True by (by apply entry_eq_dec_split). done.
    + rewrite decide_False; [done|]. intros [_ ?]%entry_eq_dec_split. done.
  - rewrite lookup_insert_ne by done.
    rewrite decide_False; [lia|]. intros [? _]%entry_eq_dec_split. done.
Qed.

Lemma count_delete_first v u urls :
  length (filter (λ x, x = u) (Spec.delete_first v urls)) =
    length (filter (λ x, x = u) urls) - (if decide (v = u) then 1 else 0).
Proof.
  induction urls as [|x urls IH]; simpl.
  - by destruct (decide (v = u)).
  - destruct (decide (x = v)) as [->|Hx].
    + rewrite filter_cons. destruct (decide (v = u)); simpl; lia.
    + rewrite !filter_cons. destruct (decide (x = u)) as [->|Hxu]; simpl.
      * rewrite IH. rewrite decide_False by congruence. lia.
      * apply IH.
Qed.

Lemma listed_apply_removed s e n u :
  Count.listed (Spec.apply_removed s e) n u =
    Count.listed s n u - (if decide (e = mkPatchEntry n u) then 1 else 0).
Proof.
  unfold Count.listed, Spec.apply_removed.
  destruct (decide (Name e = n)) as [<-|Hne].
  - destruct (s !! Name e) as [urls|] eqn:Hs; simpl.
    + destruct (decide (URL e ∈ urls)) as [Hin|Hnin].
      * rewrite lookup_insert_eq; simpl. rewrite count_delete_first.
        destruct (decide (URL e = u)) as [<-|Hu].
        -- rewrite decide_True by (by apply entry_eq_dec_split). done.
        -- rewrite decide_False; [done|].
           intros [_ ?]%entry_eq_dec_split. done.
      * rewrite Hs; simpl. destruct (decide (e = mkPatchEntry (Name e) u))
          as [[_ <-]%entry_eq_dec_split|]; [|lia].
        rewrite <- (delete_first_absent (URL e) urls Hnin) at 1.
        rewrite count_delete_first. by rewrite decide_True.
    + by rewrite Hs.
  - rewrite (decide_False (P := e = _));
      [|intros [? _]%entry_eq_dec_split; done].
    rewrite Nat.sub_0_r.
    destruct (s !! Name e) as [urls|] eqn:Hs; [|done].
    destruct (decide (URL e ∈ urls)); [|done]. by rewrite lookup_insert_ne.
Qed.

Lemma mentions_cons e (es : list patchEntry) n u :
  Count.mentions (e :: es) n u =
    (if decide (e = mkPatchEntry n u) then 1 else 0) + Count.mentions es n u.
Proof.
  unfold Count.mentions. rewrite filter_cons.
  by destruct (decide (e = mkPatchEntry n u)).
Qed.

Lemma listed_foldl_added (es : list patchEntry) s n u :
  Count.listed (foldl Spec.apply_added s es) n u =
    Count.listed s n u + Count.mentions es n u.
Proof.
  revert s. induction es as [|e es IH]; intros s; simpl.
  - unfold Count.mentions. simpl. lia.
  - rewrite IH, listed_apply_added, mentions_cons. lia.
Qed.

Lemma listed_foldl_removed (es : list patchEntry) s n u :
  Count.listed (foldl Spec.apply_removed s es) n u =
    Count.listed s n u - Count.mentions es n u.
Proof.
  revert s. induction es as [|e es IH]; intros s; simpl.
  - unfold Count.mentions. simpl. lia.
  - rewrite IH, listed_apply_removed, mentions_cons. lia.
Qed.

(** X3. How often a URL is listed for a name after [Update]: as often as
    before, plus once for each Added entry with that name and URL, minus
    once for each such Removed entry, and never less than zero. The cache
    does not deduplicate: an Added entry for a URL already listed lists it
    once more. *)
Theorem Update_listed s pat n u :
  Count.listed (Update s pat) n u =
    Count.listed s n u + Count.mentions (Added pat) n u
      - Count.mentions (Removed pat) n u.
Proof.
  rewrite Update_Apply. unfold Spec.Apply.
  by rewrite listed_foldl_removed, listed_foldl_added.
Qed.

End CacheContents.

Section CacheLists.

Import Providers.

Implicit Types (s : gmap string (list string)) (e : patchEntry).
Implicit Types (pat : patch) (u n : string) (urls : list string).

Lemma foldl_added_list (es : list patchEntry) s n :
  default [] (foldl Spec.apply_added s es !! n) =
    default [] (s !! n) ++ (URL <$> filter (λ e, Name e = n) es).
Proof.
  revert s. induction es as [|e es IH]; intros s; simpl.
  - by rewrite app_nil_r.
  - rewrite IH, filter_cons. destruct (decide (Name e = n)) as [<-|Hne].
    + unfold Spec.apply_added at 1. rewrite lookup_insert_eq; simpl.
      by rewrite <- app_assoc.
    + by rewrite apply_added_ne.
Qed.

Lemma delete_first_sublist u urls : Spec.delete_first u urls `sublist_of` urls.
Proof.
  induction urls as [|x urls IH]; simpl; [constructor|].
  destruct (decide (x = u)).
  - by apply sublist_cons.
  - by apply sublist_skip.
Qed.

Lemma apply_removed_sublist s e n :
  default [] (Spec.apply_removed s e !! n) `sublist_of` default [] (s !! n).
Proof.
  unfold Spec.apply_removed.
  destruct (s !! Name e) as [urls|] eqn:Hs; [|done].
  destruct (decide (URL e ∈ urls)); [|done].
  destruct (decide (Name e = n)) as [<-|Hne].
  - rewrite lookup_insert_eq, Hs; simpl. apply delete_first_sublist.
  - by rewrite lookup_insert_ne.
Qed.

Lemma foldl_removed_sublist (es : list patchEntry) s n :
  default [] (foldl Spec.apply_removed s es !! n) `sublist_of` default [] (s !! n).
Proof.
  revert s. induction es as [|e es IH]; intros s; simpl; [done|].
  etrans; [apply IH | apply apply_removed_sublist].
Qed.

(** X4. A patch without Removed entries puts the URLs of its Added entries
    for a name behind the URLs the cache listed for that name, in the order
    of the patch, and changes nothing else in that list. *)
Theorem Update_added_only s (added : list patchEntry) n :
  default [] (Update s (mkPatch added []) !! n) =
    default [] (s !! n) ++ (URL <$> filter (λ e, Name e = n) added).
Proof.
  rewrite Update_Apply. unfold Spec.Apply; simpl. apply foldl_added_list.
Qed.

(** X5. [Update] never reorders a list: the URLs listed for a name
    afterwards are, in the same relative order, some of the URLs listed
    before followed by the URLs of the Added entries for that name. *)
Theorem Update_keeps_order s pat n :
  default [] (Update s pat !! n) `sublist_of`
    default [] (s !! n) ++ (URL <$> filter (λ e, Name e = n) (Added pat)).
Proof.
  rewrite Update_Apply. unfold Spec.Apply.
  rewrite <- foldl_added_list. apply foldl_removed_sublist.
Qed.

Lemma delete_first_appended u urls :
  Spec.delete_first u (urls ++ [u]) ≡ₚ urls.
Proof.
  induction urls as [|x urls IH]; simpl.
  - by rewrite decide_True.
  - destruct (decide (x = u)) as [->|Hx].
    + by rewrite <- Permutation_cons_append.
    + by rewrite IH.
Qed.

(** X6. When a name has a list in the cache, the patch that adds an entry
    followed by the patch that removes the same entry leaves that list with
    the same URLs, each as often as before; when the URL was not listed
    before, the list is exactly what it was. *)
Theorem Update_add_then_remove s e urls :
  s !! Name e = Some urls →
  ∃ urls',
    Update (Update s (mkPatch [e] [])) (mkPatch [] [e]) !! Name e = Some urls' ∧
    urls' ≡ₚ urls ∧
    (URL e ∉ urls → urls' = urls).
Proof.
  intros Hs. exists (Spec.delete_first (URL e) (urls ++ [URL e])).
  split; [|split].
  - rewrite !Update_Apply. unfold Spec.Apply; simpl.
    unfold Spec.apply_added. rewrite Hs; simpl.
    unfold Spec.apply_removed. rewrite lookup_insert_eq.
    rewrite decide_True by (apply elem_of_app; right; left).
    apply lookup_insert_eq.
  - apply delete_first_appended.
  - intros Hu. rewrite delete_first_middle by done. apply app_nil_r.
Qed.

Lemma Update_add_then_remove_witness :
  ∃ urls',
    Update (Update {["X" := ["u"; "v"]]} (mkPatch [mkPatchEntry "X" "u"] []))
           (mkPatch [] [mkPatchEntry "X" "u"]) !! "X" = Some urls' ∧
    urls' ≡ₚ ["u"; "v"] ∧
    ("u" ∉ ["u"; "v"] → urls' = ["u"; "v"]).
Proof.
  apply (Update_add_then_remove {["X" := ["u"; "v"]]} (mkPatchEntry "X" "u")).
  reflexivity.
Defined.

Lemma Update_members s pat n u :
  u ∈ default [] (Update s pat !! n) →
  u ∈ default [] (s !! n) ∨ mkPatchEntry n u ∈ Added pat.
Proof.
  intros Hu. rewrite Update_Apply in Hu. unfold Spec.Apply in Hu.
  eapply elem_of_sublist in Hu; [|apply foldl_removed_sublist].
  rewrite foldl_added_list in Hu.
  apply elem_of_app in Hu as [Hu|Hu]; [by left|right].
  apply list_elem_of_fmap in Hu as (e & -> & [<- He]%list_elem_of_filter).
  by destruct e.
Qed.

Lemma foldl_Update_members (pats : list patch) s n u :
  u ∈ default [] (foldl Update s pats !! n) →
  u ∈ default [] (s !! n) ∨ ∃ pat, pat ∈ pats ∧ mkPatchEntry n u ∈ Added pat.
Proof.
  revert s. induction pats as [|pat pats IH]; intros s Hu; simpl in Hu.
  - by left.
  - apply IH in Hu as [Hu|(pat' & Hin & He)].
    + apply Update_members in Hu as [Hu|He]; [by left|right].
      exists pat. split; [left | done].
    + right. exists pat'. split; [by right | done].
Qed.

(** X7. Starting from the empty cache, a URL that [get] returns for a name
    was carried for that name by an Added entry of one of the patches
    applied. *)
Theorem get_returns_an_added_url (pats : list patch) n (idx : nat) u :
  get (foldl Update prov pats) n idx = Returns (u, None) →
  ∃ pat, pat ∈ pats ∧ mkPatchEntry n u ∈ Added pat.
Proof.
  unfold get. intros Hget.
  destruct (foldl Update prov pats !! n) as [urls|] eqn:Hs; [|done].
  destruct (urls !! idx) as [u'|] eqn:Hidx; [|done].
  injection Hget as ->.
  destruct (foldl_Update_members pats prov n u) as [Hu|Hu]; [| |done].
  - rewrite Hs; simpl. by eapply list_elem_of_lookup_2.
  - unfold prov in Hu. rewrite lookup_empty in Hu. by apply elem_of_nil in Hu.
Qed.

Lemma get_returns_an_added_url_witness :
  ∃ pat, pat ∈ [mkPatch [mkPatchEntry "X" "u1"] []] ∧
         mkPatchEntry "X" "u1" ∈ Added pat.
Proof.
  apply (get_returns_an_added_url [mkPatch [mkPatchEntry "X" "u1"] []] "X" 0 "u1").
  reflexivity.
Defined.

Lemma foldl_Update_keys (pats : list patch) s n :
  is_Some (foldl Update s pats !! n) ↔
  is_Some (s !! n) ∨ ∃ pat, pat ∈ pats ∧ n ∈ Name <$> Added pat.
Proof.
  revert s. induction pats as [|pat pats IH]; intros s; simpl.
  - split; [by left|]. intros [?|(? & ?%elem_of_nil & _)]; done.
  - rewrite IH. rewrite <- !elem_of_dom, Update_Apply. unfold Spec.Apply.
    rewrite foldl_apply_removed_dom, foldl_apply_added_dom, elem_of_union,
      elem_of_list_to_set.
    split.
    + intros [[?|?]|(pat' & ? & ?)]; [by left | right | right].
      * exists pat. split; [left | done].
      * exists pat'. split; [by right | done].
    + intros [?|(pat' & [->|?]%elem_of_cons & ?)].
      * by left; left.
      * by left; right.
      * right. by exists pat'.
Qed.

(** X8. Starting from the empty cache, [get] answers "no providers
    available" for a name exactly when no patch applied so far had an Added
    entry for that name; Removed entries never bring that answer back. *)
Theorem get_not_found_iff (pats : list patch) n (idx : nat) :
  get (foldl Update prov pats) n idx
    = Returns (EmptyString, Some (ErrNoProviders n)) ↔
  ∀ pat, pat ∈ pats → n ∉ Name <$> Added pat.
Proof.
  pose proof (foldl_Update_keys pats prov n) as Hkeys.
  unfold prov in *. rewrite lookup_empty in Hkeys.
  unfold get. split.
  - intros Hget pat Hpat Hn.
    destruct (foldl Update ∅ pats !! n) as [urls|] eqn:Hs.
    + by destruct (urls !! idx).
    + assert (is_Some (@None (list string))) as [? ?]; [|done].
      apply Hkeys. right. by exists pat.
  - intros Hnone.
    destruct (foldl Update ∅ pats !! n) as [urls|] eqn:Hs; [|done].
    destruct (proj1 Hkeys) as [[? ?]|(pat & Hpat & Hn)]; [by eexists|done|].
    by destruct (Hnone pat Hpat).
Qed.

End CacheLists.

(** ** [remove], [ServeHTTP] and [notify] of the registry *)

Section RegistryBehaviour.

Import Registry.

Context {Net : Type}.
Variable http_post : string → patch → Net → option string * Net.

Implicit Types (regs : list Registration) (r x : Registration).
Implicit Types (w : World Net) (url : string) (e : patchEntry).

Lemma first_match regs url :
  url ∈ ServiceURL <$> regs →
  ∃ l1 x l2, regs = l1 ++ x :: l2 ∧
             (∀ y, y ∈ l1 → ServiceURL y ≠ url) ∧ ServiceURL x = url.
Proof.
  induction regs as [|y regs IH]; simpl.
  - by intros ?%elem_of_nil.
  - intros Hin. destruct (decide (ServiceURL y = url)) as [Hy|Hy].
    + exists [], y, regs. split; [done|]. split; [|done].
      by intros ? ?%elem_of_nil.
    + apply elem_of_cons in Hin as [?|Hin]; [congruence|].
      destruct (IH Hin) as (l1 & x & l2 & -> & Hl1 & Hx).
      exists (y :: l1), x, l2. split; [done|]. split; [|done].
      intros z [->|Hz]%elem_of_cons; [done | by apply Hl1].
Qed.

Lemma remove_registered regs url w :
  url ∈ ServiceURL <$> regs →
  err (remove regs url w) = None ∧ world (remove regs url w) = w.
Proof.
  intros (l1 & x & l2 & -> & Hl1 & Hx)%first_match.
  by rewrite (remove_found l1 l2 x url w Hl1 Hx).
Qed.

Lemma remove_unregistered regs url w :
  url ∉ ServiceURL <$> regs →
  remove regs url w =
    {| err := Some (ErrServiceNotFound url); registrations := regs;
       spawned := []; world := w |}.
Proof.
  intros Hnot. apply remove_loop_missing. intros y Hy Heq.
  apply Hnot. rewrite <- Heq. by apply list_elem_of_fmap_2.
Qed.

(** X9. [remove] returns nil exactly when some registration has the URL,
    and the not-found error exactly when none has; in neither case does it
    post a request itself. *)
Theorem remove_succeeds_iff_registered regs url w :
  (err (remove regs url w) = None ↔ url ∈ ServiceURL <$> regs) ∧
  (err (remove regs url w) = Some (ErrServiceNotFound url) ↔
     url ∉ ServiceURL <$> regs) ∧
  world (remove regs url w) = w.
Proof.
  destruct (decide (url ∈ ServiceURL <$> regs)) as [Hin|Hnot].
  - destruct (remove_registered regs url w Hin) as [-> ->].
    split; [done|]. split; [|done]. split; [done | by intros []].
  - rewrite (remove_unregistered regs url w Hnot); simpl.
    split; [split; [done | by intros ?]|]. done.
Qed.

(** X10. The registry's handler answers 200 to a registration exactly when
    the initial-sync request succeeds and to a DELETE exactly when the URL
    is registered, and to nothing else; a request it turns down, unless it
    is a registration that could be decoded, leaves the registrations as
    they are, starts no notification and posts nothing. *)
Theorem ServeHTTP_status regs (rq : request) w :
  ((ServeHTTP http_post regs rq w).1 = 200 ↔
     match rq with
     | POST (Some r) =>
         (http_post (ServiceUpdateURL r)
            (sendRequireServices_patch (regs ++ [r]) r) (net w)).1 = None
     | DELETE payload => payload ∈ ServiceURL <$> regs
     | _ => False
     end) ∧
  ((∀ r, rq ≠ POST (Some r)) → (ServeHTTP http_post regs rq w).1 ≠ 200 →
     registrations (ServeHTTP http_post regs rq w).2 = regs ∧
     spawned (ServeHTTP http_post regs rq w).2 = [] ∧
     world (ServeHTTP http_post regs rq w).2 = w).
Proof.
  destruct rq as [[r|]|payload|]; unfold ServeHTTP.
  - rewrite add_unfold; simpl. split.
    + by destruct (http_post _ _ (net w)).1.
    + intros Hrq. by destruct (Hrq r).
  - simpl. split; [split; [discriminate | done] | done].
  - destruct (decide (payload ∈ ServiceURL <$> regs)) as [Hin|Hnot].
    + destruct (remove_registered regs payload w Hin) as [Herr _].
      simpl. rewrite Herr. split; [done | by intros _ []].
    + rewrite (remove_unregistered regs payload w Hnot); simpl.
      split; [split; [discriminate | done] | done].
  - simpl. split; [split; [discriminate | done] | done].
Qed.

Lemma foldl_notify_pick (q : string) (es acc : list patchEntry) (b : bool) :
  foldl (notify_pick q) (acc, b) es =
    (acc ++ filter (λ e, Name e = q) es,
     b || bool_decide (filter (λ e, Name e = q) es ≠ [])).
Proof.
  revert acc b. induction es as [|x es IH]; intros acc b; simpl.
  - by rewrite app_nil_r, orb_false_r.
  - unfold notify_pick at 2; simpl. rewrite filter_cons.
    destruct (decide (Name x = q)); rewrite IH; simpl.
    + by rewrite <- app_assoc, orb_true_r.
    + done.
Qed.

(** The patch one round of the goroutine builds for [q], and its flag. *)
Lemma notify_go_cons (fp : patch) r (q : string) (reqs : list string) w :
  notify_go http_post fp r (q :: reqs) w =
    if bool_decide (filter (λ e, Name e = q) (Added fp) ≠ []) ||
       bool_decide (filter (λ e, Name e = q) (Removed fp) ≠ [])
    then match sendPatch http_post
                 (mkPatch (filter (λ e, Name e = q) (Added fp))
                          (filter (λ e, Name e = q) (Removed fp)))
                 (ServiceUpdateURL r) w with
         | (Some _, w') => w'
         | (None, w') => notify_go http_post fp r reqs w'
         end
    else notify_go http_post fp r reqs w.
Proof. cbn [notify_go]. by rewrite !foldl_notify_pick. Qed.

Lemma notify_go_filtered (fp : patch) r (reqs : list string) w :
  ∃ ds, sent (notify_go http_post fp r reqs w) = sent w ++ ds ∧
    ∀ d, d ∈ ds →
      ∃ q, q ∈ reqs ∧
        d = (ServiceUpdateURL r,
             mkPatch (filter (λ e, Name e = q) (Added fp))
                     (filter (λ e, Name e = q) (Removed fp))) ∧
        ∃ e, (e ∈ Added fp ∨ e ∈ Removed fp) ∧ Name e = q.
Proof.
  revert w. induction reqs as [|q reqs IH]; intros w.
  - exists []. cbn [notify_go]. rewrite app_nil_r. split; [done|].
    by intros d ?%elem_of_nil.
  - rewrite notify_go_cons.
    destruct (bool_decide _ || bool_decide _) eqn:Hflag.
    + assert (∃ e, (e ∈ Added fp ∨ e ∈ Removed fp) ∧ Name e = q) as Hex.
      { apply orb_true_iff in Hflag as [Hne|Hne];
          apply bool_decide_eq_true in Hne.
        - destruct (filter _ (Added fp)) as [|e l] eqn:Hf; [done|].
          assert (e ∈ filter (λ e, Name e = q) (Added fp)) as
            [? ?]%list_elem_of_filter by (rewrite Hf; left).
          exists e. split; [by left | done].
        - destruct (filter _ (Removed fp)) as [|e l] eqn:Hf; [done|].
          assert (e ∈ filter (λ e, Name e = q) (Removed fp)) as
            [? ?]%list_elem_of_filter by (rewrite Hf; left).
          exists e. split; [by right | done]. }
      pose proof (sendPatch_sent http_post
                    (mkPatch (filter (λ e, Name e = q) (Added fp))
                             (filter (λ e, Name e = q) (Removed fp)))
                    (ServiceUpdateURL r) w) as Hsent.
      destruct (sendPatch http_post _ (ServiceUpdateURL r) w) as [[err|] w'];
        simpl in Hsent.
      * eexists. split; [exact Hsent|].
        intros d ->%list_elem_of_singleton. exists q. split; [left | done].
      * destruct (IH w') as (ds & Hds & Hall).
        eexists (_ :: ds). split.
        { rewrite Hds, Hsent, <- app_assoc. done. }
        intros d [->|Hd]%elem_of_cons.
        -- exists q. split; [left | done].
        -- destruct (Hall d Hd) as (q' & Hq' & Hrest).
           exists q'. split; [by right | done].
    + destruct (IH w) as (ds & Hds & Hall). exists ds. split; [done|].
      intros d Hd. destruct (Hall d Hd) as (q' & Hq' & Hrest).
      exists q'. split; [by right | done].
Qed.

(** X11. Whatever patch [notify] is given, every request one of its
    goroutines posts goes to the update URL of the goroutine's registration
    and carries the entries of that patch for one service name the
    registration requires, Added and Removed apart and in their order; the
    goroutine never posts a patch without entries. *)
Theorem notify_sends_filtered (g : goroutine) w (d : string * patch) :
  d ∈ deliveries http_post g w →
  ∃ q, q ∈ RequireServices (go_reg g) ∧
    d = (ServiceUpdateURL (go_reg g),
         mkPatch (filter (λ e, Name e = q) (Added (go_patch g)))
                 (filter (λ e, Name e = q) (Removed (go_patch g)))) ∧
    ∃ e, (e ∈ Added (go_patch g) ∨ e ∈ Removed (go_patch g)) ∧ Name e = q.
Proof.
  unfold deliveries, run_goroutine.
  destruct (notify_go_filtered (go_patch g) (go_reg g)
              (RequireServices (go_reg g)) w) as (ds & -> & Hall).
  rewrite drop_app_length. apply Hall.
Qed.

Lemma notify_go_no_retry (fp : patch) r (reqs : list string) w :
  (∀ url p n, is_Some (http_post url p n).1) →
  ∃ ds, sent (notify_go http_post fp r reqs w) = sent w ++ ds ∧ (length ds ≤ 1)%nat.
Proof.
  intros Hfail. revert w. induction reqs as [|q reqs IH]; intros w.
  - exists []. cbn [notify_go]. rewrite app_nil_r. split; [done | simpl; lia].
  - rewrite notify_go_cons. destruct (bool_decide _ || bool_decide _).
    + pose proof (sendPatch_sent http_post
                    (mkPatch (filter (λ e, Name e = q) (Added fp))
                             (filter (λ e, Name e = q) (Removed fp)))
                    (ServiceUpdateURL r) w) as Hsent.
      pose proof (sendPatch_err http_post
                    (mkPatch (filter (λ e, Name e = q) (Added fp))
                             (filter (λ e, Name e = q) (Removed fp)))
                    (ServiceUpdateURL r) w) as Herr.
      destruct (sendPatch http_post _ (ServiceUpdateURL r) w) as [[err|] w'];
        simpl in Hsent, Herr.
      * eexists. split; [exact Hsent | simpl; lia].
      * destruct (Hfail (ServiceUpdateURL r)
                    (mkPatch (filter (λ e, Name e = q) (Added fp))
                             (filter (λ e, Name e = q) (Removed fp)))
                    (net w)) as [msg Hmsg].
        rewrite Hmsg in Herr. discriminate.
    + apply IH.
Qed.

(** X12. Nothing is retried: on a network where every request fails, a
    goroutine of [notify] posts at most one request, whatever the patch and
    however many of its names the registration requires. *)
Theorem notify_never_retries (g : goroutine) w :
  (∀ url p n, is_Some (http_post url p n).1) →
  (length (deliveries http_post g w) ≤ 1)%nat.
Proof.
  intros Hfail. unfold deliveries, run_goroutine.
  destruct (notify_go_no_retry (go_patch g) (go_reg g)
              (RequireServices (go_reg g)) w Hfail) as (ds & -> & Hlen).
  by rewrite drop_app_length.
Qed.

End RegistryBehaviour.

Section FanOut.

Import Registry.

Context {Net : Type}.
Variable http_post : string → patch → Net → option string * Net.

Implicit Types (regs : list Registration) (r x : Registration).
Implicit Types (w : World Net) (url : string) (e : patchEntry).

Lemma notify_go_cons_single e (fp : patch) r (q : string) (reqs : list string) w :
  single e fp →
  notify_go http_post fp r (q :: reqs) w =
    if decide (Name e = q)
    then match sendPatch http_post fp (ServiceUpdateURL r) w with
         | (Some _, w') => w'
         | (None, w') => notify_go http_post fp r reqs w'
         end
    else notify_go http_post fp r reqs w.
Proof.
  intros Hfp. rewrite notify_go_cons.
  destruct Hfp as [-> | ->]; simpl; rewrite filter_cons, !filter_nil;
    by destruct (decide (Name e = q)).
Qed.

Lemma notify_go_silent e (fp : patch) r (reqs : list string) w :
  single e fp → Name e ∉ reqs → notify_go http_post fp r reqs w = w.
Proof.
  intros Hfp. induction reqs as [|q reqs IH]; intros Hnot; [done|].
  apply not_elem_of_cons in Hnot as [Hq Hnot].
  rewrite (notify_go_cons_single e) by done.
  rewrite decide_False by done. by apply IH.
Qed.

Lemma not_listed (name : string) (reqs : list string) :
  length (filter (λ q, q = name) reqs) = 0 → name ∉ reqs.
Proof.
  intros Hlen Hin. apply nil_length_inv in Hlen.
  assert (name ∈ filter (λ q, q = name) reqs) as Hf
    by (by apply list_elem_of_filter).
  rewrite Hlen in Hf. by apply elem_of_nil in Hf.
Qed.

Lemma notify_go_once e (fp : patch) r (reqs : list string) w :
  single e fp → length (filter (λ q, q = Name e) reqs) = 1 →
  sent (notify_go http_post fp r reqs w) = sent w ++ [(ServiceUpdateURL r, fp)].
Proof.
  intros Hfp. induction reqs as [|q reqs IH]; intros Hone; [done|].
  rewrite filter_cons in Hone.
  rewrite (notify_go_cons_single e) by done.
  destruct (decide (q = Name e)) as [->|Hne].
  - rewrite decide_True by done. simpl in Hone.
    pose proof (sendPatch_sent http_post fp (ServiceUpdateURL r) w) as Hsent.
    destruct (sendPatch http_post fp (ServiceUpdateURL r) w) as [[err|] w'];
      simpl in Hsent; [done|].
    rewrite (notify_go_silent e); [done | done |].
    apply not_listed. lia.
  - rewrite decide_False by done. by apply IH.
Qed.

(** X13. A registration that lists the service of the event exactly once
    among its requirements, whatever else it lists and however often, is
    sent the patch of the event exactly once, whether the request succeeds
    or fails. *)
Theorem notify_exactly_once (g : goroutine) w e :
  single e (go_patch g) →
  length (filter (λ q, q = Name e) (RequireServices (go_reg g))) = 1 →
  deliveries http_post g w = [(ServiceUpdateURL (go_reg g), go_patch g)].
Proof.
  intros Hfp Hone. unfold deliveries, run_goroutine.
  rewrite (notify_go_once e) by done. by rewrite drop_app_length.
Qed.

(** X14. When the goroutines that [notify] starts for a single-entry patch
    have all run, one after the other, the requests they have added to the
    log are the patch itself, sent to the update URLs of exactly the
    registrations that require the entry's service. *)
Theorem fan_out_log regs e (fp : patch) w :
  single e fp →
  ∃ ds, sent (run_all http_post (notify regs fp) w) = sent w ++ ds ∧
    ∀ d, d ∈ ds ↔
         ∃ r, r ∈ regs ∧ Name e ∈ RequireServices r ∧
              d = (ServiceUpdateURL r, fp).
Proof.
  intros Hfp. revert w. induction regs as [|x regs IH]; intros w.
  - exists []. simpl. rewrite app_nil_r. split; [done|]. intros d. split.
    + by intros ?%elem_of_nil.
    + by intros (r & ?%elem_of_nil & _).
  - cbn [notify map run_all foldl]. unfold run_goroutine at 2. simpl.
    destruct (notify_go_single http_post e fp x (RequireServices x) w Hfp)
      as (ds1 & Hds1 & Hiff1 & Hall1).
    destruct (IH (notify_go http_post fp x (RequireServices x) w))
      as (ds2 & Hds2 & Hiff2).
    exists (ds1 ++ ds2). split.
    { unfold run_all, notify in Hds2. rewrite Hds2, Hds1. by rewrite app_assoc. }
    intros d. rewrite elem_of_app, Hiff2. split.
    + intros [Hd|(r & Hr & Hreq & ->)].
      * exists x. split; [left|]. split; [|by apply Hall1].
        apply Hiff1. intros ->. by apply elem_of_nil in Hd.
      * exists r. split; [by right | done].
    + intros (r & [->|Hr]%elem_of_cons & Hreq & ->).
      * left. apply Hiff1 in Hreq.
        destruct ds1 as [|d1 ds1]; [done|].
        rewrite <- (Hall1 d1) by left. left.
      * right. by exists r.
Qed.

(** X15. Without any assumption on the requirements, the initial-sync
    patch lists the registrations of the slice in their order, each one as
    many times as its name occurs among the requirements of the new
    registration: a name required twice has its instances listed twice. *)
Theorem initial_sync_entries regs r :
  Added (sendRequireServices_patch regs r) =
    regs ≫= λ x,
      replicate (length (filter (λ q, RServiceName x = q) (RequireServices r)))
                (Spec.entry x).
Proof.
  unfold sendRequireServices_patch; simpl.
  by rewrite sendRequireServices_outer.
Qed.

Lemma remove_loop_members regs url w (i : nat) (rest : list Registration) x :
  x ∈ registrations (remove_loop regs url w i rest) → x ∈ regs.
Proof.
  revert i. induction rest as [|y rest IH]; intros i; cbn [remove_loop].
  - done.
  - destruct (decide (ServiceURL y = url)); [|apply IH]. simpl.
    intros [Hx|Hx]%elem_of_app;
      apply elem_of_take in Hx as (j & Hj & _);
      by eapply list_elem_of_lookup_2.
Qed.

Lemma step_members (st : list Registration * World Net) (o : op) x :
  x ∈ (step http_post st o).1 → x ∈ st.1 ∨ o = OpAdd x.
Proof.
  unfold step. destruct o as [r|url]; simpl.
  - rewrite add_unfold; simpl. intros [?|Hx]%elem_of_app; [by left|].
    apply list_elem_of_singleton in Hx as ->. by right.
  - intros Hx. left. by eapply remove_loop_members.
Qed.

Lemma foldl_step_members (ops : list op) (st : list Registration * World Net) x :
  x ∈ (foldl (step http_post) st ops).1 → x ∈ st.1 ∨ OpAdd x ∈ ops.
Proof.
  revert st. induction ops as [|o ops IH]; intros st; simpl; [by left|].
  intros [Hx|Hx]%IH.
  - apply step_members in Hx as [?| ->]; [by left | right; left].
  - right. by right.
Qed.

(** X16. Whatever sequence of [add] and [remove] calls the registry has
    served since it started, every registration it lists is one that an
    [add] call was given. *)
Theorem registry_lists_only_added (ops : list op) w x :
  x ∈ (run http_post ops w).1 → OpAdd x ∈ ops.
Proof.
  unfold run. intros [Hx|Hx]%foldl_step_members; [|done].
  unfold reg in Hx. by apply elem_of_nil in Hx.
Qed.

End FanOut.

(** ** The registry and the clients' caches together *)

Section Discovery.

Import Registry.

Variable wire : string → string.

Implicit Types (regs : list Registration) (r a b : Registration).
Implicit Types (n : gmap string (gmap string (list string))).
Implicit Types (w : World (gmap string (gmap string (list string)))).
Implicit Types (e : patchEntry) (c name u : string).

Lemma handler_applies (p : patch) (cache : gmap string (list string)) :
  Providers.ServeHTTP "POST" (Some p) cache = (200, Providers.Update cache p).
Proof. unfold Providers.ServeHTTP. by rewrite decide_True. Qed.

Lemma Update_added_teaches (s : gmap string (list string)) (p : patch) e :
  e ∈ Added p → Removed p = [] →
  ∃ urls, Providers.Update s p !! Name e = Some urls ∧ URL e ∈ urls.
Proof.
  intros He Hrem. destruct p as [added removed]; simpl in *; subst removed.
  destruct (Update_creates s (mkPatch added []) e He) as [urls Hurls].
  exists urls. split; [done|].
  pose proof (foldl_added_list added s (Name e)) as Hlist.
  rewrite Update_Apply in Hurls. unfold Spec.Apply in Hurls; simpl in Hurls.
  rewrite Hurls in Hlist; simpl in Hlist. rewrite Hlist.
  apply elem_of_app. right. apply list_elem_of_fmap_2.
  by apply list_elem_of_filter.
Qed.

Lemma Update_added_remembers (s : gmap string (list string)) (p : patch)
    name u (urls : list string) :
  Removed p = [] → s !! name = Some urls → u ∈ urls →
  ∃ urls', Providers.Update s p !! name = Some urls' ∧ u ∈ urls'.
Proof.
  intros Hrem Hs Hu. destruct p as [added removed]; simpl in *; subst removed.
  destruct (Update_keeps s (mkPatch added []) name) as [urls' Hurls'];
    [by eexists|].
  exists urls'. split; [done|].
  pose proof (foldl_added_list added s name) as Hlist.
  rewrite Update_Apply in Hurls'. unfold Spec.Apply in Hurls'; simpl in Hurls'.
  rewrite Hurls', Hs in Hlist; simpl in Hlist. rewrite Hlist.
  apply elem_of_app. by left.
Qed.

Lemma wire_patch_added_only (p : patch) :
  Removed p = [] → Removed (Cluster.wire_patch wire p) = [].
Proof. intros Hrem. unfold Cluster.wire_patch; simpl. by rewrite Hrem. Qed.

Lemma post_running url (p : patch) n c :
  is_Some (n !! c) → is_Some ((Cluster.post wire url p n).2 !! c).
Proof.
  intros Hc. unfold Cluster.post.
  destruct (n !! url) as [cache|] eqn:Hurl; cbn [snd]; [|done].
  destruct (decide (url = c)) as [->|Hne].
  - rewrite lookup_insert_eq. by eexists.
  - by rewrite lookup_insert_ne.
Qed.

Lemma post_remembers url (p : patch) n c name u :
  Removed p = [] → Cluster.knows n c name u →
  Cluster.knows (Cluster.post wire url p n).2 c name u.
Proof.
  intros Hrem (cache & urls & Hc & Hname & Hu). unfold Cluster.post.
  destruct (n !! url) as [cache'|] eqn:Hurl; cbn [snd].
  - destruct (decide (url = c)) as [->|Hne].
    + rewrite Hc in Hurl. injection Hurl as <-.
      rewrite handler_applies; cbn [snd].
      destruct (Update_added_remembers cache (Cluster.wire_patch wire p)
                  name u urls (wire_patch_added_only p Hrem) Hname Hu)
        as (urls' & Hurls' & Hu').
      exists (Providers.Update cache (Cluster.wire_patch wire p)), urls'.
      by rewrite lookup_insert_eq.
    + exists cache, urls. by rewrite lookup_insert_ne.
  - by exists cache, urls.
Qed.

Lemma post_teaches (p : patch) n c e :
  is_Some (n !! c) → e ∈ Added p → Removed p = [] →
  Cluster.knows (Cluster.post wire c p n).2 c (wire (Name e)) (wire (URL e)).
Proof.
  intros [cache Hc] He Hrem. unfold Cluster.post. rewrite Hc; cbn [snd].
  rewrite handler_applies; cbn [snd].
  destruct (Update_added_teaches cache (Cluster.wire_patch wire p)
              (Cluster.wire_entry wire e)) as (urls & Hurls & Hu).
  { unfold Cluster.wire_patch; simpl. by apply list_elem_of_fmap_2. }
  { by apply wire_patch_added_only. }
  exists (Providers.Update cache (Cluster.wire_patch wire p)), urls.
  by rewrite lookup_insert_eq.
Qed.

Lemma sendPatch_net {Net : Type}
    (http_post : string → patch → Net → option string * Net)
    (p : patch) (url : string) (w : World Net) :
  net (sendPatch http_post p url w).2 = (http_post url p (net w)).2.
Proof. unfold sendPatch. by destruct (http_post url p (net w)). Qed.

(** One goroutine of the fan-out of an [add], on the cluster. *)
Lemma goroutine_running e r (reqs : list string) w c :
  is_Some (net w !! c) →
  is_Some (net (notify_go (Cluster.post wire) (mkPatch [e] []) r reqs w) !! c).
Proof.
  revert w. induction reqs as [|q reqs IH]; intros w Hc; [done|].
  rewrite (notify_go_cons_single (Cluster.post wire) e) by (by left).
  destruct (decide (Name e = q)); [|by apply IH].
  pose proof (sendPatch_net (Cluster.post wire) (mkPatch [e] [])
                (ServiceUpdateURL r) w) as Hnet.
  destruct (sendPatch (Cluster.post wire) _ (ServiceUpdateURL r) w)
    as [[err|] w']; simpl in Hnet.
  - rewrite Hnet. by apply post_running.
  - apply IH. rewrite Hnet. by apply post_running.
Qed.

Lemma goroutine_remembers e r (reqs : list string) w c name u :
  Cluster.knows (net w) c name u →
  Cluster.knows
    (net (notify_go (Cluster.post wire) (mkPatch [e] []) r reqs w)) c name u.
Proof.
  revert w. induction reqs as [|q reqs IH]; intros w Hc; [done|].
  rewrite (notify_go_cons_single (Cluster.post wire) e) by (by left).
  destruct (decide (Name e = q)); [|by apply IH].
  pose proof (sendPatch_net (Cluster.post wire) (mkPatch [e] [])
                (ServiceUpdateURL r) w) as Hnet.
  destruct (sendPatch (Cluster.post wire) _ (ServiceUpdateURL r) w)
    as [[err|] w']; simpl in Hnet.
  - rewrite Hnet. by apply post_remembers.
  - apply IH. rewrite Hnet. by apply post_remembers.
Qed.

Lemma goroutine_teaches e r (reqs : list string) w :
  Name e ∈ reqs → is_Some (net w !! ServiceUpdateURL r) →
  Cluster.knows
    (net (notify_go (Cluster.post wire) (mkPatch [e] []) r reqs w))
    (ServiceUpdateURL r) (wire (Name e)) (wire (URL e)).
Proof.
  revert w. induction reqs as [|q reqs IH]; intros w Hin Hc.
  - by apply elem_of_nil in Hin.
  - rewrite (notify_go_cons_single (Cluster.post wire) e) by (by left).
    destruct (decide (Name e = q)) as [<-|Hne].
    + pose proof (sendPatch_net (Cluster.post wire) (mkPatch [e] [])
                    (ServiceUpdateURL r) w) as Hnet.
      assert (Cluster.knows (Cluster.post wire (ServiceUpdateURL r)
                               (mkPatch [e] []) (net w)).2
                (ServiceUpdateURL r) (wire (Name e)) (wire (URL e))) as Hknows.
      { apply post_teaches; [done | left | done]. }
      destruct (sendPatch (Cluster.post wire) _ (ServiceUpdateURL r) w)
        as [[err|] w']; simpl in Hnet.
      * by rewrite Hnet.
      * apply goroutine_remembers. by rewrite Hnet.
    + apply IH; [|done].
      apply elem_of_cons in Hin as [?|?]; [congruence | done].
Qed.

Lemma fan_out_running e regs w c :
  is_Some (net w !! c) →
  is_Some (net (run_all (Cluster.post wire)
                  (notify regs (mkPatch [e] [])) w) !! c).
Proof.
  revert w. induction regs as [|x regs IH]; intros w Hc; [done|].
  cbn [notify map run_all foldl]. apply IH. by apply goroutine_running.
Qed.

Lemma fan_out_remembers e regs w c name u :
  Cluster.knows (net w) c name u →
  Cluster.knows
    (net (run_all (Cluster.post wire) (notify regs (mkPatch [e] [])) w))
    c name u.
Proof.
  revert w. induction regs as [|x regs IH]; intros w Hc; [done|].
  cbn [notify map run_all foldl]. apply IH. by apply goroutine_remembers.
Qed.

Lemma fan_out_teaches e regs a w :
  a ∈ regs → Name e ∈ RequireServices a →
  is_Some (net w !! ServiceUpdateURL a) →
  Cluster.knows
    (net (run_all (Cluster.post wire) (notify regs (mkPatch [e] [])) w))
    (ServiceUpdateURL a) (wire (Name e)) (wire (URL e)).
Proof.
  revert w. induction regs as [|x regs IH]; intros w Ha Hreq Hc.
  - by apply elem_of_nil in Ha.
  - cbn [notify map run_all foldl].
    apply elem_of_cons in Ha as [<-|Ha].
    + apply fan_out_remembers. by apply goroutine_teaches.
    + apply IH; [done | done |]. by apply goroutine_running.
Qed.

(** X17. Initial sync, end to end. A client whose update handler is running
    registers; a provider of a service it requires is already registered.
    When [add] and the goroutines it started are done, the client's cache
    lists the provider's URL under the provider's service name, both as the
    JSON encoding of the patch has carried them ([wire]), so its [get] for
    that name finds the key. *)
Theorem newcomer_learns_live_providers regs r b w :
  is_Some (net w !! ServiceUpdateURL r) →
  b ∈ regs → RServiceName b ∈ RequireServices r →
  Cluster.knows (net (step (Cluster.post wire) (regs, w) (OpAdd r)).2)
                (ServiceUpdateURL r)
                (wire (RServiceName b)) (wire (ServiceURL b)).
Proof.
  intros Hc Hb Hreq. unfold step; simpl. rewrite add_unfold; simpl.
  apply (fan_out_remembers (Spec.entry r)).
  unfold sendRequireServices. rewrite sendPatch_net.
  apply (post_teaches _ _ _ (Spec.entry b)); [done| |done].
  apply initial_entries_elem. exists b.
  split; [apply elem_of_app; by left | done].
Qed.

(** X18. Fan-out, end to end. A new instance registers; a registered
    client whose update handler is running requires the new instance's
    service. When [add] and the goroutines it started are done, that
    client's cache lists the new instance's URL under its service name, both
    as the JSON encoding of the patch has carried them ([wire]). *)
Theorem dependents_learn_newcomer regs r a w :
  a ∈ regs → RServiceName r ∈ RequireServices a →
  is_Some (net w !! ServiceUpdateURL a) →
  Cluster.knows (net (step (Cluster.post wire) (regs, w) (OpAdd r)).2)
                (ServiceUpdateURL a)
                (wire (RServiceName r)) (wire (ServiceURL r)).
Proof.
  intros Ha Hreq Hc. unfold step; simpl. rewrite add_unfold; simpl.
  apply (fan_out_teaches (Spec.entry r) (regs ++ [r]) a).
  - apply elem_of_app. by left.
  - done.
  - unfold sendRequireServices. rewrite sendPatch_net. by apply post_running.
Qed.

End Discovery.

Section Forgetting.

Import Registry.

Variable wire : string → string.

Implicit Types (regs : list Registration) (r a x : Registration).
Implicit Types (n : gmap string (gmap string (list string))).
Implicit Types (w : World (gmap string (gmap string (list string)))).
Implicit Types (e : patchEntry) (c : string) (fp : patch).

Lemma post_elsewhere url fp n c :
  url ≠ c → (Cluster.post wire url fp n).2 !! c = n !! c.
Proof.
  intros Hne. unfold Cluster.post.
  destruct (n !! url) as [cache|]; cbn [snd]; [|done].
  by rewrite lookup_insert_ne.
Qed.

Lemma goroutine_elsewhere e fp r (reqs : list string) w c :
  single e fp → ServiceUpdateURL r ≠ c →
  net (notify_go (Cluster.post wire) fp r reqs w) !! c = net w !! c.
Proof.
  intros Hfp Hne. revert w. induction reqs as [|q reqs IH]; intros w; [done|].
  rewrite (notify_go_cons_single (Cluster.post wire) e) by done.
  destruct (decide (Name e = q)); [|by apply IH].
  pose proof (sendPatch_net (Cluster.post wire) fp (ServiceUpdateURL r) w)
    as Hnet.
  destruct (sendPatch (Cluster.post wire) fp (ServiceUpdateURL r) w)
    as [[err|] w']; simpl in Hnet.
  - rewrite Hnet. by apply post_elsewhere.
  - rewrite IH, Hnet. by apply post_elsewhere.
Qed.

Lemma fan_out_elsewhere e fp regs w c :
  single e fp → (∀ r, r ∈ regs → ServiceUpdateURL r ≠ c) →
  net (run_all (Cluster.post wire) (notify regs fp) w) !! c = net w !! c.
Proof.
  intros Hfp. revert w. induction regs as [|x regs IH]; intros w Hregs; [done|].
  cbn [notify map run_all foldl]. unfold run_all, notify in IH. rewrite IH.
  - unfold run_goroutine; simpl.
    apply (goroutine_elsewhere e); [done|]. apply Hregs. left.
  - intros r Hr. apply Hregs. by right.
Qed.

Lemma goroutine_posts_once e fp r (reqs : list string) w :
  single e fp → length (filter (λ q, q = Name e) reqs) = 1 →
  net (notify_go (Cluster.post wire) fp r reqs w) =
    (Cluster.post wire (ServiceUpdateURL r) fp (net w)).2.
Proof.
  intros Hfp. revert w. induction reqs as [|q reqs IH]; intros w Hone; [done|].
  rewrite filter_cons in Hone.
  rewrite (notify_go_cons_single (Cluster.post wire) e) by done.
  destruct (decide (q = Name e)) as [->|Hne].
  - rewrite decide_True by done. simpl in Hone.
    pose proof (sendPatch_net (Cluster.post wire) fp (ServiceUpdateURL r) w)
      as Hnet.
    destruct (sendPatch (Cluster.post wire) fp (ServiceUpdateURL r) w)
      as [[err|] w']; simpl in Hnet; [done|].
    rewrite (notify_go_silent (Cluster.post wire) e); [done | done |].
    apply not_listed. lia.
  - rewrite decide_False by done. by apply IH.
Qed.

Lemma fan_out_at_one e fp (l1 l2 : list Registration) a w
    (cache : gmap string (list string)) :
  single e fp →
  (∀ r, r ∈ l1 ++ l2 → ServiceUpdateURL r ≠ ServiceUpdateURL a) →
  length (filter (λ q, q = Name e) (RequireServices a)) = 1 →
  net w !! ServiceUpdateURL a = Some cache →
  net (run_all (Cluster.post wire) (notify (l1 ++ a :: l2) fp) w)
    !! ServiceUpdateURL a
    = Some (Providers.Update cache (Cluster.wire_patch wire fp)).
Proof.
  intros Hfp Hother Hone Hcache.
  assert (run_all (Cluster.post wire) (notify (l1 ++ a :: l2) fp) w =
          run_all (Cluster.post wire) (notify l2 fp)
            (run_goroutine (Cluster.post wire) (mkGoroutine a fp)
               (run_all (Cluster.post wire) (notify l1 fp) w))) as ->.
  { unfold run_all, notify. by rewrite map_app, foldl_app. }
  rewrite (fan_out_elsewhere e) by
    (done || intros r Hr; apply Hother, elem_of_app; by right).
  unfold run_goroutine; cbn [go_patch go_reg].
  rewrite (goroutine_posts_once e) by done.
  pose proof (fan_out_elsewhere e fp l1 w (ServiceUpdateURL a) Hfp) as H1.
  rewrite Hcache in H1.
  unfold Cluster.post at 1. rewrite H1 by
    (intros r Hr; apply Hother, elem_of_app; by left).
  cbn [snd]. by rewrite lookup_insert_eq, handler_applies.
Qed.

(** X19. Removal, end to end. The URL of a registered provider [x] is
    removed; a registered client [a], the only registration with its update
    URL, has its handler running and lists the provider's service exactly
    once among its requirements, whatever else it lists. When [remove] and
    the goroutines it started are done, the client's cache is its old cache
    with the one patch [{Removed: [{name of x, url}]}] applied, name and URL
    as the JSON encoding of the patch has carried them ([wire]), so that URL
    is listed once less often under that name (or still not at all). *)
Theorem dependents_forget_removed regs (l1 l2 m1 m2 : list Registration)
    a x url w (cache : gmap string (list string)) :
  regs = m1 ++ x :: m2 →
  (∀ y, y ∈ m1 → ServiceURL y ≠ url) → ServiceURL x = url →
  regs = l1 ++ a :: l2 →
  (∀ r, r ∈ l1 ++ l2 → ServiceUpdateURL r ≠ ServiceUpdateURL a) →
  length (filter (λ q, q = RServiceName x) (RequireServices a)) = 1 →
  net w !! ServiceUpdateURL a = Some cache →
  net (step (Cluster.post wire) (regs, w) (OpRemove url)).2
    !! ServiceUpdateURL a
    = Some (Providers.Update cache
              (mkPatch [] [mkPatchEntry (wire (RServiceName x)) (wire url)])) ∧
  Count.listed (Providers.Update cache
                  (mkPatch [] [mkPatchEntry (wire (RServiceName x)) (wire url)]))
               (wire (RServiceName x)) (wire url)
    = Count.listed cache (wire (RServiceName x)) (wire url) - 1.
Proof.
  intros Hx Hm1 Hurl Ha Hother Hone Hcache. split.
  - subst regs. unfold step; cbn [fst snd].
    rewrite (remove_found m1 m2 x url w Hm1 Hurl); cbn [spawned world].
    rewrite Ha. rewrite <- Hurl.
    apply (fan_out_at_one (Spec.entry x) (mkPatch [] [Spec.entry x]));
      try done. by right.
  - rewrite Update_Apply. unfold Spec.Apply.
    rewrite listed_foldl_removed, listed_foldl_added; simpl.
    unfold Count.mentions; simpl.
    rewrite filter_cons, filter_nil, decide_True by done. simpl. lia.
Qed.

End Forgetting.

(** ** The further properties on concrete registries and caches *)

Section ClosedMore.

Import Registry Sample.

Lemma notify_sends_filtered_witness :
  ∃ q, q ∈ RequireServices needsB ∧
    (ServiceUpdateURL needsB, mkPatch [Spec.entry svcB] [])
      = (ServiceUpdateURL needsB,
         mkPatch (filter (λ e, Name e = q) [Spec.entry svcB])
                 (filter (λ e, Name e = q) [])) ∧
    ∃ e, (e ∈ [Spec.entry svcB] ∨ e ∈ []) ∧ Name e = q.
Proof.
  apply (notify_sends_filtered reliable
           (mkGoroutine needsB (mkPatch [Spec.entry svcB] [])) quiet
           (ServiceUpdateURL needsB, mkPatch [Spec.entry svcB] [])).
  vm_compute. left.
Defined.

Lemma notify_never_retries_witness :
  (length (deliveries unreachable
             (mkGoroutine (mkRegistration "C" "http://c:1" ["B"; "B"] "http://c:1/services")
                          (mkPatch [Spec.entry svcB] []))
             quiet) ≤ 1)%nat.
Proof.
  apply (notify_never_retries unreachable).
  intros url p n. simpl. by eexists.
Defined.

Lemma notify_exactly_once_witness :
  deliveries (reaches "http://nowhere")
             (mkGoroutine
                (mkRegistration "D" "http://d:1" ["B"; "C"; "C"] "http://d:1/services")
                (mkPatch [] [Spec.entry svcB]))
             quiet
    = [("http://d:1/services", mkPatch [] [Spec.entry svcB])].
Proof.
  apply (notify_exactly_once (reaches "http://nowhere")
           (mkGoroutine
              (mkRegistration "D" "http://d:1" ["B"; "C"; "C"] "http://d:1/services")
              (mkPatch [] [Spec.entry svcB]))
           quiet (Spec.entry svcB)).
  - right. reflexivity.
  - reflexivity.
Defined.

Lemma fan_out_log_witness :
  ∃ ds, sent (run_all reliable
                (notify [svcA; needsB] (mkPatch [] [Spec.entry svcB])) quiet)
          = sent quiet ++ ds ∧
    ∀ d, d ∈ ds ↔
         ∃ r, r ∈ [svcA; needsB] ∧ Name (Spec.entry svcB) ∈ RequireServices r ∧
              d = (ServiceUpdateURL r, mkPatch [] [Spec.entry svcB]).
Proof.
  apply (fan_out_log reliable [svcA; needsB] (Spec.entry svcB)).
  right. reflexivity.
Defined.

Lemma registry_lists_only_added_witness :
  OpAdd svcB ∈ [OpAdd svcA; OpAdd svcB; OpRemove "http://c:1"].
Proof.
  apply (registry_lists_only_added reliable
           [OpAdd svcA; OpAdd svcB; OpRemove "http://c:1"] quiet svcB).
  vm_compute. right. left.
Defined.

Lemma newcomer_learns_live_providers_witness :
  Cluster.knows
    (net (step (Cluster.post (λ x, x)) ([svcB], mkWorld clients [])
            (OpAdd needsB)).2)
    (ServiceUpdateURL needsB) (RServiceName svcB) (ServiceURL svcB).
Proof.
  apply (newcomer_learns_live_providers (λ x, x) [svcB] needsB svcB
           (mkWorld clients [])).
  - simpl. unfold clients. rewrite lookup_singleton_eq. by eexists.
  - left.
  - simpl. left.
Defined.

Lemma dependents_learn_newcomer_witness :
  Cluster.knows
    (net (step (Cluster.post (λ x, x)) ([needsB], mkWorld clients [])
            (OpAdd svcB)).2)
    (ServiceUpdateURL needsB) (RServiceName svcB) (ServiceURL svcB).
Proof.
  apply (dependents_learn_newcomer (λ x, x) [needsB] svcB needsB
           (mkWorld clients [])).
  - left.
  - simpl. left.
  - simpl. unfold clients. rewrite lookup_singleton_eq. by eexists.
Defined.

Lemma dependents_forget_removed_witness :
  net (step (Cluster.post (λ x, x)) ([svcB; needsB], mkWorld informed [])
         (OpRemove (ServiceURL svcB))).2 !! ServiceUpdateURL needsB
    = Some (Providers.Update {["B" := [ServiceURL svcB]]}
              (mkPatch [] [mkPatchEntry (RServiceName svcB) (ServiceURL svcB)])) ∧
  Count.listed (Providers.Update {["B" := [ServiceURL svcB]]}
                  (mkPatch [] [mkPatchEntry (RServiceName svcB) (ServiceURL svcB)]))
               (RServiceName svcB) (ServiceURL svcB)
    = Count.listed {["B" := [ServiceURL svcB]]}
                   (RServiceName svcB) (ServiceURL svcB) - 1.
Proof.
  apply (dependents_forget_removed (λ x, x) [svcB; needsB] [svcB] [] [] [needsB]
           needsB svcB (ServiceURL svcB) (mkWorld informed [])
           {["B" := [ServiceURL svcB]]}).
  - reflexivity.
  - intros y Hy. by apply elem_of_nil in Hy.
  - reflexivity.
  - reflexivity.
  - intros r [->|Hr]%elem_of_cons; [discriminate | by apply elem_of_nil in Hr].
  - reflexivity.
  - simpl. unfold informed. apply lookup_singleton_eq.
Defined.

End ClosedMore.
